(** * Part-of-speech tagging notebook: count tables, baseline tagger,
      HMM build loop and evaluator.

    Shallow embedding of [parts-of-speech-tagging.ipynb].

    - Python exceptions are values of [exn]; a fallible computation has type
      [result A], and [for] loops are monadic folds that stop at the first
      exception.
    - A Python [dict] is an association list in insertion order ([dict K V]):
      a lookup finds the first binding, a store overwrites in place or appends.
    - Counts are [nat] (Python's unbounded non-negative integers).
    - True division [a / b] of two counts is kept as the exact quotient in [Q]
      (numerator and denominator as written), with [ZeroDivisionError] on a
      zero divisor.
    - The pomegranate objects ([State], [HiddenMarkovModel]) are records that
      keep what the notebook hands to the library, call by call. *)

From stdpp Require Import base option list strings gmap.
From Stdlib Require Import QArith.

Local Open Scope string_scope.
Local Open Scope list_scope.
Local Open Scope nat_scope.

(** ** Exceptions and the error monad *)

Inductive exn : Type :=
  | KeyError
  | IndexError
  | ZeroDivisionError
  | ValueError
  | TypeError
  | AttributeError
  | OtherError (msg : string).

Definition result (A : Type) : Type := exn + A.

Abbreviation ok a := (inr a) (only parsing).
Abbreviation raise e := (inl e) (only parsing).

Definition bind {A B} (m : result A) (k : A → result B) : result B :=
  match m with
  | inl e => inl e
  | inr a => k a
  end.

Notation "'do' x <- m ; k" := (bind m (λ x, k))
  (at level 10, x name, m at level 100, k at level 200).

(** [for x in l: s = body(s, x)], leaving the loop at the first exception. *)
Fixpoint for_each {A S} (body : S → A → result S) (s : S) (l : list A)
  : result S :=
  match l with
  | [] => ok s
  | x :: l' => do s' <- body s x; for_each body s' l'
  end.

(** [enumerate(l)], counting from [n]. *)
Fixpoint enumerate_from {A} (n : nat) (l : list A) : list (nat * A) :=
  match l with
  | [] => []
  | x :: l' => (n, x) :: enumerate_from (S n) l'
  end.

Definition enumerate {A} (l : list A) : list (nat * A) := enumerate_from 0 l.

(** [l[i]] for a non-negative index. *)
Definition getitem {A} (l : list A) (i : nat) : result A :=
  match l !! i with
  | Some x => ok x
  | None => raise IndexError
  end.

(** [a / b] on counts. *)
Definition truediv (a b : nat) : result Q :=
  match b with
  | O => raise ZeroDivisionError
  | S _ => ok (Qmake (Z.of_nat a) (Pos.of_nat b))
  end.

(** ** Dictionaries *)

Abbreviation dict K V := (list (K * V)) (only parsing).

Section dict_ops.
Context {K V : Type} `{EqDecision K}.

Fixpoint dget (k : K) (d : dict K V) : option V :=
  match d with
  | [] => None
  | (k', v) :: d' => if decide (k = k') then Some v else dget k d'
  end.

(** [d[k] = v] *)
Fixpoint dset (k : K) (v : V) (d : dict K V) : dict K V :=
  match d with
  | [] => [(k, v)]
  | (k', v') :: d' =>
      if decide (k = k') then (k, v) :: d' else (k', v') :: dset k v d'
  end.

(** [d[k]] *)
Definition dlookup (d : dict K V) (k : K) : result V :=
  match dget k d with
  | Some v => ok v
  | None => raise KeyError
  end.

Definition dkeys (d : dict K V) : list K := d.*1.
End dict_ops.

(** ** Count tables *)

Abbreviation table2 := (dict string (dict string nat)) (only parsing).

(** One pass of the inner loop body of [pair_counts], after [t] is read. *)
Definition pair_store (results : table2) (s_A t : string) : table2 :=
  match dget s_A results with
  | Some row =>
      match dget t row with
      | Some c => dset s_A (dset t (c + 1) row) results
      | None => dset s_A (dset t 1 row) results
      end
  | None => dset s_A [(t, 1)] results
  end.

Definition pair_counts (sequences_A sequences_B : list (list string))
  : result table2 :=
  for_each (λ results '(x1, sentence),
      for_each (λ results '(x2, s_A),
          do row <- getitem sequences_B x1;
          do t <- getitem row x2;
          ok (pair_store results s_A t))
        results (enumerate sentence))
    [] (enumerate sequences_A).

(** [if y in d: d[y] += 1 else: d[y] = 1] *)
Definition count_store {K} `{EqDecision K} (d : dict K nat) (y : K)
  : dict K nat :=
  match dget y d with
  | Some c => dset y (c + 1) d
  | None => dset y 1 d
  end.

Definition unigram_counts (sequences : list (list string)) : dict string nat :=
  fold_left (λ unigram_counts '(i, sentence),
      fold_left (λ unigram_counts '(j, y), count_store unigram_counts y)
        (enumerate sentence) unigram_counts)
    (enumerate sequences) [].

Definition bigram_counts (sequences : list (list string))
  : result (dict (string * string) nat) :=
  for_each (λ bigram_counts '(i, sentence),
      for_each (λ bigram_counts y,
          do a <- getitem sentence y;
          do b <- getitem sentence (y + 1);
          ok (count_store bigram_counts (a, b)))
        bigram_counts (seq 0 (length sentence - 1)))
    [] (enumerate sequences).

Definition starting_counts (sequences : list (list string))
  : result (dict string nat) :=
  for_each (λ starting_counts '(i, sentence),
      do first <- getitem sentence 0;
      ok (count_store starting_counts first))
    [] (enumerate sequences).

(** [l[i]] for a signed index: a negative [i] counts from the end. *)
Definition getitem_int {A} (l : list A) (i : Z) : result A :=
  let n := Z.of_nat (length l) in
  let j := if (i <? 0)%Z then (i + n)%Z else i in
  if ((0 <=? j) && (j <? n))%Z then getitem l (Z.to_nat j)
  else raise IndexError.

Definition ending_counts (sequences : list (list string))
  : result (dict string nat) :=
  for_each (λ ending_counts '(i, sentence),
      let indexVal := (Z.of_nat (length sentence) - 1)%Z in
      do last <- getitem_int sentence indexVal;
      ok (count_store ending_counts last))
    [] (enumerate sequences).

(** ** The HMM build loop *)

(** What the notebook passes to pomegranate: a [State] is made of the
    probability table given to [DiscreteDistribution] and a name; the model
    keeps the states and the transitions in the order they are added. *)
Record State : Type := mkState {
  distribution : dict string Q;
  name : string
}.

Inductive node : Type :=
  | model_start
  | model_end
  | state_node (s : State).

Record HiddenMarkovModel : Type := mkHMM {
  hmm_name : string;
  hmm_states : list State;
  hmm_edges : list (node * node * Q);
  hmm_baked : bool
}.

Definition new_model (nm : string) : HiddenMarkovModel :=
  mkHMM nm [] [] false.

Definition add_state (m : HiddenMarkovModel) (s : State) : HiddenMarkovModel :=
  mkHMM (hmm_name m) (hmm_states m ++ [s]) (hmm_edges m) (hmm_baked m).

Definition add_transition (m : HiddenMarkovModel) (a b : node) (p : Q)
  : HiddenMarkovModel :=
  mkHMM (hmm_name m) (hmm_states m) (hmm_edges m ++ [(a, b, p)]) (hmm_baked m).

Definition bake (m : HiddenMarkovModel) : HiddenMarkovModel :=
  mkHMM (hmm_name m) (hmm_states m) (hmm_edges m) true.

(** [{key: value / total for key, value in row.items()}] *)
Definition prob_dist_of (row : dict string nat) (total : nat)
  : result (dict string Q) :=
  for_each (λ prob_dist '(key, value),
      do p <- truediv value total;
      ok (dset key p prob_dist))
    [] row.

Section build.
Variables (emission_counts : table2)
          (tag_unigrams : dict string nat)
          (tag_bigrams : dict (string * string) nat)
          (tag_starts tag_ends : dict string nat)
          (len_data_y : nat).

(** Body of [for tag in emission_counts]. *)
Definition state_loop_body
    (st : dict string State * HiddenMarkovModel) (tag : string)
  : result (dict string State * HiddenMarkovModel) :=
  let '(states, basic_model) := st in
  do total <- dlookup tag_unigrams tag;
  do row <- dlookup emission_counts tag;
  do prob_dist <- prob_dist_of row total;
  let temp_state := mkState prob_dist tag in
  let states := dset tag temp_state states in
  do s <- dlookup states tag;
  ok (states, add_state basic_model s).

(** Body of [for bigram in tag_bigrams.keys()]. *)
Definition transition_loop_body (states : dict string State)
    (basic_model : HiddenMarkovModel) (bigram : string * string)
  : result HiddenMarkovModel :=
  let b0 := bigram.1 in
  let b1 := bigram.2 in
  do c <- dlookup tag_starts b0;
  do prob <- truediv c len_data_y;
  do s0 <- dlookup states b0;
  let basic_model := add_transition basic_model model_start (state_node s0) prob in
  do c <- dlookup tag_bigrams bigram;
  do u <- dlookup tag_unigrams b0;
  do prob <- truediv c u;
  do s0 <- dlookup states b0;
  do s1 <- dlookup states b1;
  let basic_model := add_transition basic_model (state_node s0) (state_node s1) prob in
  do c <- dlookup tag_ends b0;
  do prob <- truediv c len_data_y;
  do s0 <- dlookup states b0;
  ok (add_transition basic_model (state_node s0) model_end prob).

Definition build_basic_model : result HiddenMarkovModel :=
  let basic_model := new_model "base-hmm-tagger" in
  do st <- for_each state_loop_body ([], basic_model) (dkeys emission_counts);
  let '(states, basic_model) := st in
  do basic_model <-
    for_each (transition_loop_body states) basic_model (dkeys tag_bigrams);
  ok (bake basic_model).
End build.

(** The notebook's cells from the training split to the baked model:
    [X = data.training_set.X], [Y = data.training_set.Y]. *)
Definition train_basic_model (X Y : list (list string))
  : result HiddenMarkovModel :=
  do emission_counts <- pair_counts Y X;
  let tag_unigrams := unigram_counts Y in
  do tag_bigrams <- bigram_counts Y;
  do tag_starts <- starting_counts Y;
  do tag_ends <- ending_counts Y;
  build_basic_model emission_counts tag_unigrams tag_bigrams
    tag_starts tag_ends (length Y).

(** ** Most-frequent-class baseline *)

Record FakeState : Type := mkFakeState { fake_name : string }.

(** Objects that appear in a decoded path. *)
Inductive pyobj : Type :=
  | ObjStr (s : string)
  | ObjFakeState (f : FakeState)
  | ObjState (s : State).

(** [o.name] *)
Definition getattr_name (o : pyobj) : result string :=
  match o with
  | ObjStr _ => raise AttributeError
  | ObjFakeState f => ok (fake_name f)
  | ObjState s => ok (name s)
  end.

Abbreviation path := (list (nat * pyobj)) (only parsing).

(** [max(l, key=key)]: the first element whose key is not exceeded. *)
Fixpoint max_loop {A} (key : A → result nat) (best : A) (best_key : nat)
    (l : list A) : result A :=
  match l with
  | [] => ok best
  | x :: l' =>
      do v <- key x;
      if (best_key <? v)%nat then max_loop key x v l'
      else max_loop key best best_key l'
  end.

Definition py_max {A} (key : A → result nat) (l : list A) : result A :=
  match l with
  | [] => raise ValueError
  | x :: l' => do v <- key x; max_loop key x v l'
  end.

(** The cell that fills [mfc_table], iterating over the vocabulary. *)
Definition build_mfc_table (vocab : gset string) (word_counts : table2)
  : result (dict string string) :=
  for_each (λ mfc_table word,
      do row <- dlookup word_counts word;
      do tag_val <- py_max (λ k, do row <- dlookup word_counts word;
                                 dlookup row k) (dkeys row);
      ok (dset word tag_val mfc_table))
    [] (elements vocab).

Module MFCTagger.
Definition missing : FakeState := mkFakeState "<MISSING>".

(** The tagger object: [table] is a [defaultdict] whose factory returns
    [missing]. *)
Record t : Type := mk { table : dict string FakeState }.

(** [{word: FakeState(name=tag) for word, tag in table.items()}] and
    [update]. *)
Definition init (table : dict string string) : t :=
  let fresh :=
    fold_left (λ d '(word, tag), dset word (mkFakeState tag) d) table [] in
  mk (fold_left (λ d '(word, fs), dset word fs d) fresh []).

(** [self.table[w]]: a miss stores the default before returning it. *)
Definition table_getitem (self : t) (w : string) : t * FakeState :=
  match dget w (table self) with
  | Some fs => (self, fs)
  | None => (mk (dset w missing (table self)), missing)
  end.

(** [[self.table[w] for w in seq]] *)
Fixpoint lookup_all (self : t) (seq : list string) : t * list FakeState :=
  match seq with
  | [] => (self, [])
  | w :: seq' =>
      let '(self, fs) := table_getitem self w in
      let '(self, rest) := lookup_all self seq' in
      (self, fs :: rest)
  end.

Definition viterbi (self : t) (seq : list string) : t * (Q * path) :=
  let '(self, tags) := lookup_all self seq in
  (self, (0%Q, enumerate ([ObjStr "<start>"] ++ (ObjFakeState <$> tags)
                           ++ [ObjStr "<end>"]))).
End MFCTagger.

(** The baseline as the notebook builds it from the training split. *)
Definition train_mfc_model (vocab : gset string) (X Y : list (list string))
  : result MFCTagger.t :=
  do word_counts <- pair_counts X Y;
  do mfc_table <- build_mfc_table vocab word_counts;
  ok (MFCTagger.init mfc_table).

(** ** Decoding helpers and the evaluator *)

Definition replace_unknown (vocab : gset string) (sequence : list string)
  : list string :=
  (λ w, if decide (w ∈ vocab) then w else "nan") <$> sequence.

(** [l[1:-1]] *)
Definition slice_inner {A} (l : list A) : list A :=
  take (length l - 2) (drop 1 l).

Fixpoint map_result {A B} (f : A → result B) (l : list A) : result (list B) :=
  match l with
  | [] => ok []
  | x :: l' => do y <- f x; do ys <- map_result f l'; ok (y :: ys)
  end.

(** [sum(p == t for p, t in zip(ps, ts))] *)
Definition count_equal (ps ts : list string) : nat :=
  sum_list ((λ '(p, t), if decide (p = t) then 1 else 0) <$> zip ps ts).

Section evaluator.
(** Any object with a [viterbi] method: [Model] is its state, and a call
    returns the state it leaves behind with either an exception or the pair
    of a score and a state path ([None] when no path exists). *)
Context {Model Score : Type}.
Variable viterbi : Model → list string → Model * result (Score * option path).
Variable vocab : gset string.

Definition simplify_decoding (X : list string) (model : Model)
  : Model * result (list string) :=
  let '(model, r) := viterbi model (replace_unknown vocab X) in
  (model,
   do out <- r;
   match out.2 with
   | None => raise TypeError
   | Some state_path =>
       map_result (λ state, getattr_name state.2) (slice_inner state_path)
   end).

(** Loop state of [accuracy]: the model, [correct], [total_predictions]. *)
Definition accuracy_body (st : Model * nat * nat)
    (pair : list string * list string) : Model * nat * nat :=
  let '(model, correct, total_predictions) := st in
  let '(observations, actual_tags) := pair in
  let '(model, r) := simplify_decoding observations model in
  let correct :=
    match r with
    | inr most_likely_tags => correct + count_equal most_likely_tags actual_tags
    | inl _ => correct
    end in
  (model, correct, total_predictions + length observations).

Definition accuracy (X Y : list (list string)) (model : Model)
  : Model * result Q :=
  let '(model, correct, total_predictions) :=
    fold_left accuracy_body (zip X Y) (model, 0, 0) in
  (model, truediv correct total_predictions).
End evaluator.

(** The baseline tagger seen through the evaluator's interface. *)
Definition mfc_viterbi (self : MFCTagger.t) (seq : list string)
  : MFCTagger.t * result (Q * option path) :=
  let '(self, (score, p)) := MFCTagger.viterbi self seq in
  (self, ok (score, Some p)).

(** Modelled from the spec: [helpers.Dataset] is not part of the sources; the
    notebook documents [vocab] as the collection of the unique words of the
    subset. *)
Definition vocab_of (X : list (list string)) : gset string :=
  list_to_set (concat X).

(** ** Quantities the statements below are written with *)

(** [sum(result[a][b] for a in result for b in result[a])] *)
Definition table2_total (r : table2) : nat :=
  sum_list_with (λ a,
      match dget a r with
      | Some row => sum_list_with (λ b, default 0 (dget b row)) (dkeys row)
      | None => 0
      end)
    (dkeys r).

(** The count a counting dictionary holds for [k] (absent keys count 0). *)
Definition dcount {K} `{EqDecision K} (d : dict K nat) (k : K) : nat :=
  default 0 (dget k d).

(** Occurrences of [a] immediately followed by [b] inside one sentence. *)
Fixpoint adjacent_in (a b : string) (sentence : list string) : nat :=
  match sentence with
  | x :: rest =>
      match rest with
      | y :: _ => (if decide (x = a ∧ y = b) then 1 else 0) + adjacent_in a b rest
      | [] => 0
      end
  | [] => 0
  end.

(** The bindings of a two-level table, summed. *)
Definition table2_sum (r : table2) : nat :=
  sum_list_with (λ p, sum_list_with (λ q, q.2) p.2) r.

(** Shape kept by the count tables: keys are stored once (as in any Python
    [dict]) and rows are never empty. *)
Definition table2_wf (r : table2) : Prop :=
  NoDup (dkeys r) ∧ ∀ a row, dget a r = Some row → NoDup (dkeys row) ∧ row ≠ [].

(** Every stored count is positive. *)
Definition dpos {K} `{EqDecision K} (d : dict K nat) : Prop :=
  ∀ k c, dget k d = Some c → 0 < c.

(** Every token position of [A] has a counterpart in [B]. *)
Definition covered (A B : list (list string)) : Prop :=
  ∀ i j sa a, A !! i = Some sa → sa !! j = Some a →
    ∃ sb b, B !! i = Some sb ∧ sb !! j = Some b.

Section evaluator_outcomes.
Context {Model Score : Type}.
Variable viterbi : Model → list string → Model * result (Score * option path).
Variable vocab : gset string.

(** What decoding each sentence of [X] in turn gives, the model being handed
    from one sentence to the next. *)
Fixpoint decode_all (model : Model) (X : list (list string))
  : list (result (list string)) :=
  match X with
  | [] => []
  | observations :: X' =>
      let '(model, r) := simplify_decoding viterbi vocab observations model in
      r :: decode_all model X'
  end.
End evaluator_outcomes.

(** Correct predictions credited to one sentence: none when decoding raised. *)
Definition sentence_correct (r : result (list string))
    (actual_tags : list string) : nat :=
  match r with
  | inr most_likely_tags => count_equal most_likely_tags actual_tags
  | inl _ => 0
  end.

(** [tag] has the largest count in the row of [w]. *)
Definition most_frequent (word_counts : table2)
    (w tag : string) : Prop :=
  ∃ row c, dget w word_counts = Some row ∧ dget tag row = Some c
    ∧ ∀ tag' c', dget tag' row = Some c' → c' ≤ c.

(** The tagger object after it has decoded the sequences [earlier]. *)
Definition mfc_after (self : MFCTagger.t) (earlier : list (list string))
  : MFCTagger.t :=
  fold_left (λ self seq, (MFCTagger.viterbi self seq).1) earlier self.

(** What a lookup in the tagger's table answers, given the table [tbl] the
    tagger was made from. *)
Definition mfc_answer (tbl : dict string string) (w : string) : FakeState :=
  from_option mkFakeState MFCTagger.missing (dget w tbl).

(** The tagger's [defaultdict] still answers as [tbl] prescribes. *)
Definition mfc_agrees (tbl : dict string string) (self : MFCTagger.t) : Prop :=
  ∀ w, dget w (MFCTagger.table self) = Some (mfc_answer tbl w)
       ∨ (dget w tbl = None ∧ dget w (MFCTagger.table self) = None).

#[global] Instance Q_eq_dec : EqDecision Q.
Proof. solve_decision. Defined.
#[global] Instance State_eq_dec : EqDecision State.
Proof. solve_decision. Defined.
#[global] Instance node_eq_dec : EqDecision node.
Proof. solve_decision. Defined.

Section build_outcomes.
Variables (emission_counts : table2)
          (tag_unigrams : dict string nat)
          (tag_bigrams : dict (string * string) nat)
          (tag_starts tag_ends : dict string nat)
          (len_data_y : nat).

(** [s] is the state the first loop makes for [tag]. *)
Definition state_built (tag : string) (s : State) : Prop :=
  name s = tag
  ∧ ∃ total row, dget tag tag_unigrams = Some total
      ∧ dget tag emission_counts = Some row
      ∧ prob_dist_of row total = ok (distribution s).

(** [es] are the three transitions the second loop adds for [bigram]. *)
Definition transitions_added (states : dict string State)
    (bigram : string * string) (es : list (node * node * Q)) : Prop :=
  ∃ s0 s1 c_start c_pair total c_end p_start p_pair p_end,
    dget bigram.1 states = Some s0 ∧ dget bigram.2 states = Some s1
    ∧ dget bigram.1 tag_starts = Some c_start
    ∧ truediv c_start len_data_y = ok p_start
    ∧ dget bigram tag_bigrams = Some c_pair
    ∧ dget bigram.1 tag_unigrams = Some total
    ∧ truediv c_pair total = ok p_pair
    ∧ dget bigram.1 tag_ends = Some c_end
    ∧ truediv c_end len_data_y = ok p_end
    ∧ es = [(model_start, state_node s0, p_start);
            (state_node s0, state_node s1, p_pair);
            (state_node s0, model_end, p_end)].
End build_outcomes.

(** The transitions of [m] from [a] to [b], in the order they were added. *)
Definition transitions_between (m : HiddenMarkovModel) (a b : node)
  : list (node * node * Q) :=
  filter (λ e, e.1 = (a, b)) (hmm_edges m).

(** A training split on which the build succeeds: every tag that begins a
    pair also begins a sentence and ends a sentence. *)
Definition example_X : list (list string) :=
  [["Spot"; "saw"; "dog"; "toys"]; ["Run"; "Spot"; "run"]].
Definition example_Y : list (list string) :=
  [["NOUN"; "VERB"; "NOUN"; "NOUN"]; ["VERB"; "NOUN"; "VERB"]].

(** A decoder for examples: the baseline tagger, except that it finds no
    path ([None], as pomegranate reports a blocked lattice) for a sentence
    that holds the sentinel. *)
Definition blocked_viterbi (self : MFCTagger.t) (seq : list string)
  : MFCTagger.t * result (Q * option path) :=
  if decide ("nan" ∈ seq) then (self, ok (0%Q, None)) else mfc_viterbi self seq.

(** ** Quantities for the further properties *)

(** How often [x] occurs in [l]. *)
Definition occurrences {A} `{EqDecision A} (x : A) (l : list A) : nat :=
  length (filter (λ y, y = x) l).

(** [r[a][b]], with 0 for an absent key. *)
Definition cell (r : table2) (a b : string) : nat :=
  match dget a r with
  | Some row => dcount row b
  | None => 0
  end.

(** The counts of the row [r[a]], added up (0 for an absent row). *)
Definition row_total (r : table2) (a : string) : nat :=
  match dget a r with
  | Some row => sum_list_with snd row
  | None => 0
  end.

(** The pairs [(A[i][j], B[i][j])] at the positions both collections have. *)
Definition aligned_pairs (A B : list (list string)) : list (string * string) :=
  concat (zip_with zip A B).

(** Every count stored in a two-level table is positive. *)
Definition table2_pos (r : table2) : Prop :=
  ∀ a row, dget a r = Some row → dpos row.

(** The counts of the pairs that begin with [t], added up:
    [sum(d[(t, u)] for u)]. *)
Definition first_total (d : dict (string * string) nat) (t : string) : nat :=
  sum_list_with (λ p, if decide (p.1.1 = t) then p.2 else 0) d.

(** What the tagger's [defaultdict] answers for [w]: the stored state, or
    the default. *)
Definition table_answer (self : MFCTagger.t) (w : string) : FakeState :=
  default MFCTagger.missing (dget w (MFCTagger.table self)).

(** A count as a dictionary stores it: no entry for 0. *)
Definition stored (n : nat) : option nat :=
  if decide (n = 0) then None else Some n.

(** * Lemmas *)

(** ** The error monad and loops *)

Lemma bind_ok_inv {A B} (m : result A) (k : A → result B) (b : B) :
  bind m k = ok b → ∃ a, m = ok a ∧ k a = ok b.
Proof. destruct m as [e|a]; simpl; [discriminate | eauto]. Qed.

Lemma bind_err_inv {A B} (m : result A) (k : A → result B) (e : exn) :
  bind m k = raise e → m = raise e ∨ ∃ a, m = ok a ∧ k a = raise e.
Proof.
  destruct m as [e'|a]; simpl; intros Hm; [left | right; eauto].
  by injection Hm as ->.
Qed.

Ltac inv_bind H :=
  let a := fresh "a" in
  let Ha := fresh "Ha" in
  apply bind_ok_inv in H as (a & Ha & H).

Lemma for_each_pure {A S} (f : S → A → S) s l :
  for_each (λ s x, ok (f s x)) s l = ok (fold_left f l s).
Proof. revert s. induction l as [|x l IH]; intros s; simpl; [done|]. apply IH. Qed.

(** A property kept by every successful pass is kept by the loop. *)
Lemma for_each_invariant {A S} (I : S → Prop) (body : S → A → result S) l :
  (∀ s x s', x ∈ l → I s → body s x = ok s' → I s') →
  ∀ s s', I s → for_each body s l = ok s' → I s'.
Proof.
  induction l as [|x l IH]; intros Hstep s s' Hs Hrun; simpl in Hrun.
  - by injection Hrun as <-.
  - inv_bind Hrun. eapply IH; [|eapply Hstep; [left|done..]|done].
    intros ????; apply Hstep. by right.
Qed.

(** A measure that grows by [w x] in the pass for [x] grows by the sum. *)
Lemma for_each_measure {A S} (μ : S → nat) (w : A → nat)
    (body : S → A → result S) l :
  (∀ s x s', x ∈ l → body s x = ok s' → μ s' = μ s + w x) →
  ∀ s s', for_each body s l = ok s' → μ s' = μ s + sum_list_with w l.
Proof.
  induction l as [|x l IH]; intros Hstep s s' Hrun; simpl in Hrun.
  - injection Hrun as <-. simpl. lia.
  - inv_bind Hrun. simpl.
    rewrite (IH (λ s x s' Hx, Hstep s x s' (list_elem_of_further _ _ _ Hx)) _ _ Hrun).
    rewrite (Hstep s x a); [lia|left|done].
Qed.

(** A loop whose passes cannot fail does not fail. *)
Lemma for_each_total {A S} (I : S → Prop) (body : S → A → result S) l :
  (∀ s x, x ∈ l → I s → ∃ s', body s x = ok s' ∧ I s') →
  ∀ s, I s → ∃ s', for_each body s l = ok s' ∧ I s'.
Proof.
  induction l as [|x l IH]; intros Hstep s Hs; simpl; [by eexists|].
  destruct (Hstep s x) as (s1 & -> & Hs1); [left|done|]. simpl.
  apply IH; [|done]. intros ????; apply Hstep; [by right|done].
Qed.

(** What a loop gathers: if the pass for [x] adds exactly the keys [hit x],
    the loop adds the keys hit by some element. *)
Lemma for_each_collect {A S K} (has : S → K → Prop) (hit : A → K → Prop)
    (body : S → A → result S) l :
  (∀ s x s', x ∈ l → body s x = ok s' → ∀ k, has s' k ↔ has s k ∨ hit x k) →
  ∀ s s', for_each body s l = ok s' →
    ∀ k, has s' k ↔ has s k ∨ ∃ x, x ∈ l ∧ hit x k.
Proof.
  induction l as [|x l IH]; intros Hstep s s' Hrun k; simpl in Hrun.
  - injection Hrun as <-. split; [by left|]. intros [?|(x & []%elem_of_nil & _)]. done.
  - inv_bind Hrun.
    rewrite (IH (λ s x s' Hx, Hstep s x s' (list_elem_of_further _ _ _ Hx)) _ _ Hrun).
    rewrite (Hstep s x a); [|left|done]. split.
    + intros [[?|?]|(y & ? & ?)]; [by left|right; exists x|right; exists y];
        split; try done; [left|by right].
    + intros [?|(y & [->|?]%elem_of_cons & ?)]; [by left; left|by left; right|].
      right. by exists y.
Qed.

(** The exceptions of a loop are those of its passes. *)
Lemma for_each_raise {A S} (P : exn → Prop) (body : S → A → result S) l :
  (∀ s x e, x ∈ l → body s x = raise e → P e) →
  ∀ s e, for_each body s l = raise e → P e.
Proof.
  induction l as [|x l IH]; intros Hstep s e Hrun; simpl in Hrun; [done|].
  apply bind_err_inv in Hrun as [Hx|(s1 & _ & Hl)].
  - eapply Hstep; [left|done].
  - eapply IH; [|done]. intros ????; eapply Hstep. by right.
Qed.

(** A loop that ends normally ran every pass normally. *)
Lemma for_each_ok_elem {A S} (body : S → A → result S) l s s' x :
  for_each body s l = ok s' → x ∈ l → ∃ s1 s2, body s1 x = ok s2.
Proof.
  revert s. induction l as [|y l IH]; intros s Hrun Hx; simpl in Hrun.
  - by apply elem_of_nil in Hx.
  - inv_bind Hrun. apply elem_of_cons in Hx as [->|Hx]; eauto.
Qed.

Lemma enumerate_from_snd {A} n (l : list A) : (enumerate_from n l).*2 = l.
Proof. revert n. induction l as [|x l IH]; intros n; simpl; [done|]. by rewrite IH. Qed.

Lemma enumerate_from_lookup {A} n (l : list A) i x :
  enumerate_from n l !! i = Some (n + i, x) ↔ l !! i = Some x.
Proof.
  revert n i. induction l as [|y l IH]; intros n [|i]; simpl; try done.
  - rewrite Nat.add_0_r. split; congruence.
  - rewrite <- (IH (S n) i). by replace (n + S i) with (S n + i) by lia.
Qed.

Lemma enumerate_from_elem {A} n (l : list A) p :
  p ∈ enumerate_from n l → n ≤ p.1 ∧ l !! (p.1 - n) = Some p.2.
Proof.
  revert n. induction l as [|y l IH]; intros n Hp; simpl in Hp.
  - by apply elem_of_nil in Hp.
  - apply elem_of_cons in Hp as [->|Hp]; simpl.
    + by rewrite Nat.sub_diag.
    + apply IH in Hp as [Hle Hl]. split; [lia|].
      by replace (p.1 - n) with (S (p.1 - S n)) by lia.
Qed.

Lemma enumerate_elem {A} (l : list A) i x :
  (i, x) ∈ enumerate l → l !! i = Some x.
Proof.
  intros Hp. apply enumerate_from_elem in Hp as [_ Hl]. simpl in Hl.
  by rewrite Nat.sub_0_r in Hl.
Qed.

Lemma sum_list_with_enumerate {A} (w : A → nat) n (l : list A) :
  sum_list_with (λ p, w p.2) (enumerate_from n l) = sum_list_with w l.
Proof. revert n. induction l as [|x l IH]; intros n; simpl; [done|]. by rewrite IH. Qed.

Lemma sum_list_with_length_concat {A} (ls : list (list A)) :
  sum_list_with length ls = length (concat ls).
Proof. induction ls as [|l ls IH]; simpl; [done|]. rewrite length_app. lia. Qed.

Lemma elem_of_concat {A} (x : A) (ls : list (list A)) :
  x ∈ concat ls ↔ ∃ l, l ∈ ls ∧ x ∈ l.
Proof.
  induction ls as [|l ls IH]; simpl.
  - split; [by intros ?%elem_of_nil|by intros (? & ?%elem_of_nil & _)].
  - rewrite elem_of_app, IH. split.
    + intros [?|(l' & ? & ?)]; [exists l|exists l']; split; try done; [left|by right].
    + intros (l' & [->|?]%elem_of_cons & ?); [by left|right; eauto].
Qed.

Lemma sum_list_with_ext_in {A} (f g : A → nat) l :
  (∀ x, x ∈ l → f x = g x) → sum_list_with f l = sum_list_with g l.
Proof.
  induction l as [|x l IH]; intros Hfg; simpl; [done|].
  rewrite Hfg by left. rewrite IH; [done|]. intros; apply Hfg; by right.
Qed.

(** ** Dictionaries *)

Section dict_facts.
Context {K V : Type} `{EqDecision K}.
Implicit Types (d : dict K V) (k : K) (v : V).

Lemma dget_dset k k' v d :
    dget k' (dset k v d) = if decide (k' = k) then Some v else dget k' d.
  Proof.
    induction d as [|[k0 v0] d IH]; simpl.
    - repeat case_decide; congruence.
    - repeat (case_decide; simpl); congruence.
  Qed.

Lemma dget_dset_eq k v d : dget k (dset k v d) = Some v.
  Proof. rewrite dget_dset. by case_decide. Qed.

Lemma dget_dset_ne k k' v d : k' ≠ k → dget k' (dset k v d) = dget k' d.
  Proof. intros. rewrite dget_dset. by case_decide. Qed.

Lemma dget_is_Some k d : is_Some (dget k d) ↔ k ∈ dkeys d.
  Proof.
    unfold dkeys. induction d as [|[k0 v0] d IH]; simpl.
    - split; [by intros [? ?]|by intros ?%elem_of_nil].
    - rewrite elem_of_cons. case_decide; [by split; [left|eexists]|].
      rewrite IH. split; [by right|]. by intros [?|?].
  Qed.

Lemma dget_None k d : dget k d = None ↔ k ∉ dkeys d.
  Proof. rewrite <- dget_is_Some, eq_None_not_Some. done. Qed.

Lemma dkeys_dset k v d :
    dkeys (dset k v d) = if dget k d is Some _ then dkeys d else dkeys d ++ [k].
  Proof.
    unfold dkeys. induction d as [|[k0 v0] d IH]; [done|]. simpl dset. simpl dget.
    case_decide; [by subst|]. rewrite fmap_cons, IH. by destruct (dget k d).
  Qed.

Lemma NoDup_dset k v d : NoDup (dkeys d) → NoDup (dkeys (dset k v d)).
  Proof.
    intros Hd. rewrite dkeys_dset. destruct (dget k d) eqn:Hg; [done|].
    apply NoDup_app. split_and!; [done| |apply NoDup_singleton].
    intros x Hx ->%list_elem_of_singleton. by apply dget_None in Hg.
  Qed.

  (** Summing [f d[k]] over the keys is summing over the bindings. *)
Lemma sum_over_keys (f : V → nat) d :
    NoDup (dkeys d) →
    sum_list_with (λ k, from_option f 0 (dget k d)) (dkeys d)
    = sum_list_with (λ p, f p.2) d.
  Proof.
    unfold dkeys. induction d as [|[k0 v0] d IH]; simpl; intros Hd; [done|].
    apply NoDup_cons in Hd as [Hk0 Hd]. case_decide; [|done]. simpl.
    rewrite <- IH by done. f_equal. apply sum_list_with_ext_in.
    intros k Hk. case_decide; [by subst|done].
  Qed.

Lemma sum_dset (f : V → nat) k v d :
    sum_list_with (λ p, f p.2) (dset k v d) + from_option f 0 (dget k d)
    = sum_list_with (λ p, f p.2) d + f v.
  Proof.
    induction d as [|[k0 v0] d IH]; simpl; [lia|].
    case_decide; simpl; lia.
  Qed.
End dict_facts.

(** ** Counting dictionaries *)

Section count_facts.
Context {K : Type} `{EqDecision K}.
Implicit Types (d : dict K nat) (k y : K).

Lemma dcount_count_store d y k :
  dcount (count_store d y) k = dcount d k + (if decide (k = y) then 1 else 0).
Proof.
  unfold dcount, count_store.
  destruct (dget y d) as [c|] eqn:Hy; rewrite dget_dset;
    case_decide; subst; rewrite ?Hy; simpl; lia.
Qed.

Lemma count_store_is_Some d y k :
  is_Some (dget k (count_store d y)) ↔ is_Some (dget k d) ∨ k = y.
Proof.
  unfold count_store.
  destruct (dget y d) as [c|] eqn:Hy; rewrite dget_dset; case_decide; subst;
    rewrite ?Hy; split; eauto; intros [?|?]; eauto; done.
Qed.

Lemma NoDup_count_store d y : NoDup (dkeys d) → NoDup (dkeys (count_store d y)).
Proof. unfold count_store. destruct (dget y d); apply NoDup_dset. Qed.

Lemma dpos_count_store d y : dpos d → dpos (count_store d y).
Proof.
  unfold dpos, count_store. intros Hd k c.
  destruct (dget y d) as [c0|] eqn:Hy; rewrite dget_dset; case_decide;
    try (intros [= <-]; lia); apply Hd.
Qed.

Lemma dpos_dget d k : dpos d → dget k d = if decide (dcount d k = 0) then None else Some (dcount d k).
Proof.
  unfold dcount. intros Hd. destruct (dget k d) as [c|] eqn:Hk; simpl; [|done].
  apply Hd in Hk. case_decide; [lia|done].
Qed.
End count_facts.

(** ** [pair_counts] *)

Lemma pair_store_sum r a t : table2_sum (pair_store r a t) = table2_sum r + 1.
Proof.
  unfold table2_sum, pair_store.
  pose proof (sum_dset (λ row : dict string nat, sum_list_with (λ q, q.2) row) a) as Ho.
  destruct (dget a r) as [row|] eqn:Ha.
  - pose proof (sum_dset (λ c : nat, c) t) as Hi.
    destruct (dget t row) as [c|] eqn:Ht.
    + specialize (Ho (dset t (c + 1) row) r). specialize (Hi (c + 1) row).
      rewrite Ha in Ho. rewrite Ht in Hi. simpl in *. lia.
    + specialize (Ho (dset t 1 row) r). specialize (Hi 1 row).
      rewrite Ha in Ho. rewrite Ht in Hi. simpl in *. lia.
  - specialize (Ho [(t, 1)] r). rewrite Ha in Ho. simpl in *. lia.
Qed.

Lemma dset_not_nil {K V} `{EqDecision K} (k : K) (v : V) d : dset k v d ≠ [].
Proof. destruct d as [|[k0 v0] d]; simpl; [done|]. by case_decide. Qed.

Lemma pair_store_wf r a t : table2_wf r → table2_wf (pair_store r a t).
Proof.
  intros [Hk Hrows]. unfold pair_store.
  assert (∀ row', NoDup (dkeys row') → row' ≠ [] → table2_wf (dset a row' r)) as Hset.
  { intros row' Hnd Hne. split; [by apply NoDup_dset|].
    intros a' row''. rewrite dget_dset. case_decide; [|apply Hrows].
    by intros [= <-]. }
  destruct (dget a r) as [row|] eqn:Ha.
  - destruct (Hrows _ _ Ha) as [Hnd _].
    destruct (dget t row); apply Hset; auto using NoDup_dset, dset_not_nil.
  - apply Hset; [apply NoDup_singleton|done].
Qed.

Lemma pair_store_is_Some r a t a' :
  is_Some (dget a' (pair_store r a t)) ↔ is_Some (dget a' r) ∨ a' = a.
Proof.
  unfold pair_store.
  destruct (dget a r) as [row|] eqn:Ha; [destruct (dget t row)|];
    rewrite dget_dset; case_decide; subst; rewrite ?Ha;
    split; eauto; intros [?|?]; eauto; done.
Qed.

Lemma table2_total_sum r : table2_wf r → table2_total r = table2_sum r.
Proof.
  intros [Hk Hrows]. unfold table2_total, table2_sum.
  rewrite <- (sum_over_keys (λ row, sum_list_with (λ q : string * nat, q.2) row) r Hk).
  apply sum_list_with_ext_in. intros a Ha.
  apply dget_is_Some in Ha as [row Hrow]. rewrite Hrow. simpl.
  destruct (Hrows _ _ Hrow) as [Hnd _].
  rewrite <- (sum_over_keys (λ c : nat, c) row Hnd).
  apply sum_list_with_ext_in. intros b Hb. by destruct (dget b row).
Qed.

(** The inner loop of [pair_counts] for the sentence at index [x1]. *)
Abbreviation pair_inner B x1 :=
  (λ (results : table2) '(x2, s_A),
     do row <- getitem B x1; do t <- getitem row x2; ok (pair_store results s_A t)).
Abbreviation pair_outer B :=
  (λ (results : table2) '(x1, sentence),
     for_each (pair_inner B x1) results (enumerate sentence)).

Lemma pair_inner_step B x1 r p r' :
  pair_inner B x1 r p = ok r' → ∃ t, r' = pair_store r p.2 t.
Proof.
  destruct p as [x2 a]. intros Hrun. inv_bind Hrun. inv_bind Hrun.
  injection Hrun as <-. eauto.
Qed.

Lemma pair_counts_sum A B r :
  pair_counts A B = ok r → table2_sum r = length (concat A).
Proof.
  unfold pair_counts. intros Hrun.
  apply (for_each_measure table2_sum (λ p, length p.2)) in Hrun.
  - rewrite Hrun. unfold enumerate. rewrite sum_list_with_enumerate.
    by rewrite sum_list_with_length_concat.
  - intros s [x1 sentence] s' _ Hin.
    apply (for_each_measure table2_sum (λ _, 1)) in Hin.
    + rewrite Hin. simpl. f_equal. unfold enumerate.
      rewrite (sum_list_with_enumerate (λ _, 1)).
      clear. induction sentence; simpl; [done|]. by f_equal.
    + intros s0 p s0' _ [t ->]%pair_inner_step. apply pair_store_sum.
Qed.

Lemma pair_counts_wf A B r : pair_counts A B = ok r → table2_wf r.
Proof.
  unfold pair_counts.
  apply (for_each_invariant table2_wf); [|split; [apply NoDup_nil_2|done]].
  intros s [x1 sentence] s' _ Hs.
  apply (for_each_invariant table2_wf); [|done].
  intros s0 p s0' _ Hs0 [t ->]%pair_inner_step. by apply pair_store_wf.
Qed.

Lemma enumerate_exists {A} (P : A → Prop) n (l : list A) :
  (∃ p, p ∈ enumerate_from n l ∧ P p.2) ↔ ∃ x, x ∈ l ∧ P x.
Proof.
  split.
  - intros (p & Hp & HP). exists p.2. split; [|done].
    rewrite <- (enumerate_from_snd n l). apply list_elem_of_fmap. eauto.
  - intros (x & Hx & HP). rewrite <- (enumerate_from_snd n l) in Hx.
    apply list_elem_of_fmap in Hx as (p & -> & Hp). eauto.
Qed.

Lemma enumerate_lookup_elem {A} (l : list A) i x :
  l !! i = Some x → (i, x) ∈ enumerate l.
Proof.
  intros Hl. apply list_elem_of_lookup. exists i.
  by apply (enumerate_from_lookup 0).
Qed.

Lemma pair_counts_keys A B r a :
  pair_counts A B = ok r → is_Some (dget a r) ↔ a ∈ concat A.
Proof.
  unfold pair_counts. intros Hrun.
  apply (for_each_collect (λ r a, is_Some (dget a r)) (λ p a, a ∈ p.2)) with (k := a)
    in Hrun.
  - rewrite Hrun. unfold enumerate. rewrite (enumerate_exists (λ s, a ∈ s)).
    rewrite elem_of_concat. simpl. split; [|by right].
    intros [[? [=]]|(s & ? & ?)]. eauto.
  - clear. intros s [x1 sentence] s' _ Hin k. simpl.
    apply (for_each_collect (λ r a, is_Some (dget a r)) (λ p a, a = p.2)) with (k := k)
      in Hin.
    + rewrite Hin. unfold enumerate. rewrite (enumerate_exists (λ x, k = x)).
      split; (intros [?|H]; [by left|right]).
      * by destruct H as (x & ? & ->).
      * eauto.
    + intros s0 p s0' _ [t ->]%pair_inner_step k0. apply pair_store_is_Some.
Qed.

Lemma pair_counts_raise A B e : pair_counts A B = raise e → e = IndexError.
Proof.
  unfold pair_counts. intros Hrun.
  eapply (for_each_raise (λ e, e = IndexError)); [|exact Hrun].
  intros s [x1 sentence] e1 _ Hrun1.
  eapply (for_each_raise (λ e, e = IndexError)); [|exact Hrun1].
  clear. intros s0 [x2 a] e _ Hrun.
  unfold getitem in Hrun.
  destruct (B !! x1) as [row|]; simpl in Hrun; [|by injection Hrun].
  destruct (row !! x2); simpl in Hrun; [done|by injection Hrun].
Qed.

Lemma pair_counts_covered A B : covered A B ↔ ∃ r, pair_counts A B = ok r.
Proof.
  unfold pair_counts. split.
  - intros Hcov.
    destruct (for_each_total (λ _, True) (pair_outer B) (enumerate A)) with (s := @nil (string * list (string * nat)))
      as (r & Hr & _); [|done|by exists r].
    intros s [x1 sentence] Hx1%enumerate_elem _.
    destruct (for_each_total (λ _, True) (pair_inner B x1) (enumerate sentence)) with (s := s)
      as (r & Hr & _); [|done|by exists r].
    intros s0 [x2 a] Hx2%enumerate_elem _.
    destruct (Hcov _ _ _ _ Hx1 Hx2) as (sb & b & Hsb & Hb).
    unfold getitem. rewrite Hsb. simpl. rewrite Hb. simpl. eauto.
  - intros [r Hrun] i j sa a Hsa Ha.
    apply enumerate_lookup_elem in Hsa, Ha.
    destruct (for_each_ok_elem _ _ _ _ _ Hrun Hsa) as (s1 & s2 & Hin).
    destruct (for_each_ok_elem _ _ _ _ _ Hin Ha) as (s3 & s4 & Hstep).
    simpl in Hstep. unfold getitem in Hstep.
    destruct (B !! i) as [sb|]; simpl in Hstep; [|done].
    destruct (sb !! j) as [b|] eqn:Hb; simpl in Hstep; [|done]. eauto.
Qed.

Lemma same_shape_covered A B :
  Forall2 (λ a b : list string, length a = length b) A B → covered A B.
Proof.
  intros Hshape i j sa a Hsa Ha.
  destruct (Forall2_lookup_l _ _ _ _ _ Hshape Hsa) as (sb & Hsb & Hlen).
  apply lookup_lt_Some in Ha. rewrite Hlen in Ha.
  apply lookup_lt_is_Some in Ha as [b Hb]. eauto.
Qed.

(** ** The evaluator *)

Section evaluator_facts.
Context {Model Score : Type}.
Variable viterbi : Model → list string → Model * result (Score * option path).
Variable vocab : gset string.

Lemma accuracy_loop (XY : list (list string * list string)) model c t :
  let '(_, c', t') := fold_left (accuracy_body viterbi vocab) XY (model, c, t) in
  c' = c + sum_list (zip_with sentence_correct
                       (decode_all viterbi vocab model XY.*1) XY.*2)
  ∧ t' = t + length (concat XY.*1).
Proof.
  revert model c t. induction XY as [|[obs tags] XY IH]; intros model c t.
  - simpl. lia.
  - cbn [fold_left accuracy_body]. rewrite !fmap_cons. cbn [fst snd decode_all].
    destruct (simplify_decoding viterbi vocab obs model) as [model' r].
    match goal with |- context [fold_left _ XY (model', ?c1, ?t1)] =>
      specialize (IH model' c1 t1) end.
    destruct (fold_left _ XY _) as [[m1 c1] t1]. destruct IH as [-> ->].
    cbn [concat zip_with sum_list sum_list_with]. rewrite length_app.
    split; [|lia]. destruct r; simpl; lia.
Qed.

Lemma accuracy_pairs X Y model :
  (accuracy viterbi vocab X Y model).2
  = truediv (sum_list (zip_with sentence_correct
                         (decode_all viterbi vocab model (zip X Y).*1) (zip X Y).*2))
            (length (concat (zip X Y).*1)).
Proof.
  unfold accuracy. pose proof (accuracy_loop (zip X Y) model 0 0) as H.
  destruct (fold_left _ (zip X Y) _) as [[m1 c1] t1]. by destruct H as [-> ->].
Qed.

Lemma accuracy_raise X Y model e :
  (accuracy viterbi vocab X Y model).2 = raise e → e = ZeroDivisionError.
Proof.
  rewrite accuracy_pairs. unfold truediv.
  destruct (length _); [by intros [= <-]|done].
Qed.
End evaluator_facts.

Lemma zip_take_min {A B} (l : list A) (k : list B) :
  zip (take (length l `min` length k) l) (take (length l `min` length k) k) = zip l k.
Proof.
  revert k. induction l as [|x l IH]; intros [|y k]; simpl; try done.
  by rewrite IH.
Qed.

(** ** [bigram_counts] *)

Abbreviation bigram_inner sentence :=
  (λ (bigram_counts : dict (string * string) nat) (y : nat),
     do a <- getitem sentence y;
     do b <- getitem sentence (y + 1);
     ok (count_store bigram_counts (a, b))).

Lemma bigram_inner_step sentence d y d' :
  bigram_inner sentence d y = ok d' →
  ∃ a b, sentence !! y = Some a ∧ sentence !! (y + 1) = Some b
         ∧ d' = count_store d (a, b).
Proof.
  unfold getitem. intros Hrun.
  destruct (sentence !! y) as [a|]; simpl in Hrun; [|done].
  destruct (sentence !! (y + 1)) as [b|]; simpl in Hrun; [|done].
  injection Hrun as <-. eauto.
Qed.

(** Position [y] of [sentence] starts the pair [(a, b)]. *)
Lemma adjacent_in_positions a b sentence :
  sum_list_with (λ y, if decide (sentence !! y = Some a ∧ sentence !! (y + 1) = Some b)
                      then 1 else 0)
    (seq 0 (length sentence - 1))
  = adjacent_in a b sentence.
Proof.
  induction sentence as [|x rest IH]; [done|].
  destruct rest as [|x' rest]; [done|].
  change (adjacent_in a b (x :: x' :: rest))
    with ((if decide (x = a ∧ x' = b) then 1 else 0) + adjacent_in a b (x' :: rest)).
  rewrite <- IH. clear IH.
  replace (length (x :: x' :: rest) - 1) with (S (length (x' :: rest) - 1))
    by (simpl; lia).
  rewrite <- cons_seq, <- fmap_S_seq. cbn [sum_list_with].
  f_equal.
  - simpl. apply decide_ext. split; intros [??]; split; congruence.
  - generalize (seq 0 (length (x' :: rest) - 1)). intros l.
    induction l as [|y l IHl]; [done|]. rewrite fmap_cons. cbn [sum_list_with].
    by rewrite IHl.
Qed.

Lemma adjacent_in_pos a b sentence :
  0 < adjacent_in a b sentence
  ↔ ∃ k, sentence !! k = Some a ∧ sentence !! S k = Some b.
Proof.
  induction sentence as [|x rest IH]; simpl.
  - split; [lia|]. by intros (k & ? & _).
  - destruct rest as [|y rest].
    + split; [lia|]. intros ([|k] & ? & ?); done.
    + case_decide as Hxy.
      * destruct Hxy as [-> ->]. split; [|lia]. intros _. by exists 0.
      * simpl (0 + _). rewrite IH. split.
        -- intros (k & ? & ?). by exists (S k).
        -- intros ([|k] & Hk & Hk'); [|by exists k].
           simpl in Hk, Hk'. destruct Hxy. split; congruence.
Qed.

Lemma sum_list_with_pos {A} (f : A → nat) l :
  0 < sum_list_with f l ↔ ∃ x, x ∈ l ∧ 0 < f x.
Proof.
  induction l as [|x l IH]; simpl.
  - split; [lia|]. by intros (? & ?%elem_of_nil & _).
  - split.
    + intros H. destruct (decide (0 < f x)); [exists x; split; [left|done]|].
      destruct (proj1 IH) as (y & ? & ?); [lia|]. exists y. split; [by right|done].
    + intros (y & [->|Hy]%elem_of_cons & Hf); [lia|].
      assert (0 < sum_list_with f l) by (apply IH; eauto). lia.
Qed.

Lemma bigram_counts_total sequences : ∃ d, bigram_counts sequences = ok d.
Proof.
  unfold bigram_counts.
  destruct (for_each_total (λ _, True)
              (λ d '(i, sentence), for_each (bigram_inner sentence) d
                                     (seq 0 (length sentence - 1)))
              (enumerate sequences)) with (s := @nil (string * string * nat))
    as (d & Hd & _); [|done|by exists d].
  intros d [i sentence] _ _.
  destruct (for_each_total (λ _, True) (bigram_inner sentence)
              (seq 0 (length sentence - 1))) with (s := d)
    as (d' & Hd' & _); [|done|by exists d'].
  intros d0 y [_ Hy]%elem_of_seq _. unfold getitem.
  destruct (lookup_lt_is_Some_2 sentence y) as [a ->]; [lia|].
  destruct (lookup_lt_is_Some_2 sentence (y + 1)) as [b ->]; [lia|].
  simpl. eauto.
Qed.

Lemma bigram_counts_dcount sequences d a b :
  bigram_counts sequences = ok d →
  dcount d (a, b) = sum_list_with (adjacent_in a b) sequences.
Proof.
  unfold bigram_counts. intros Hrun.
  apply (for_each_measure (λ d, dcount d (a, b)) (λ p, adjacent_in a b p.2)) in Hrun.
  - rewrite Hrun. unfold enumerate. by rewrite sum_list_with_enumerate.
  - intros d0 [i sentence] d1 _ Hin. simpl.
    rewrite <- adjacent_in_positions.
    refine (for_each_measure (λ d, dcount d (a, b)) _ (bigram_inner sentence)
              _ _ d0 d1 Hin).
    intros d2 y d3 _ (a' & b' & Ha & Hb & ->)%bigram_inner_step.
    rewrite dcount_count_store, Ha, Hb. f_equal.
    apply decide_ext. split; [intros [= -> ->]; done|intros [[= ->] [= ->]]; done].
Qed.

Lemma bigram_counts_shape sequences d :
  bigram_counts sequences = ok d → NoDup (dkeys d) ∧ dpos d.
Proof.
  unfold bigram_counts.
  apply (for_each_invariant (λ d, NoDup (dkeys d) ∧ dpos d)).
  - intros d0 [i sentence] d1 _ Hd0.
    apply (for_each_invariant (λ d, NoDup (dkeys d) ∧ dpos d)); [|done].
    intros d2 y d3 _ [??] (a' & b' & _ & _ & ->)%bigram_inner_step.
    auto using NoDup_count_store, dpos_count_store.
  - split; [apply NoDup_nil_2|]. by intros ??.
Qed.

(** ** The baseline tagger *)

Lemma max_loop_spec {A} (key : A → result nat) l best bv :
  (∀ x, x ∈ l → ∃ v, key x = ok v) →
  ∃ r rv, max_loop key best bv l = ok r
    ∧ ((r = best ∧ rv = bv) ∨ (r ∈ l ∧ key r = ok rv))
    ∧ bv ≤ rv
    ∧ ∀ x v, x ∈ l → key x = ok v → v ≤ rv.
Proof.
  revert best bv. induction l as [|x l IH]; intros best bv Hkeys; simpl.
  - exists best, bv. split_and!; [done|by left|done|]. by intros ?? ?%elem_of_nil.
  - destruct (Hkeys x) as [v Hv]; [left|]. rewrite Hv. simpl.
    assert (∀ y, y ∈ l → ∃ v, key y = ok v) as Hl by (intros; apply Hkeys; by right).
    destruct (Nat.ltb_spec bv v).
    + destruct (IH x v Hl) as (r & rv & -> & Hr & Hle & Hmax).
      exists r, rv. split_and!; [done| |lia|].
      * right. destruct Hr as [[-> ->]|[? ?]]; (split; [|done]); [left|by right].
      * intros y vy [->|Hy]%elem_of_cons Hvy; [|by eapply Hmax].
        rewrite Hv in Hvy. injection Hvy as <-. lia.
    + destruct (IH best bv Hl) as (r & rv & -> & Hr & Hle & Hmax).
      exists r, rv. split_and!; [done| |lia|].
      * destruct Hr as [[-> ->]|[? ?]]; [by left|right]. split; [by right|done].
      * intros y vy [->|Hy]%elem_of_cons Hvy; [|by eapply Hmax].
        rewrite Hv in Hvy. injection Hvy as <-. lia.
Qed.

Lemma py_max_spec {A} (key : A → result nat) l :
  l ≠ [] → (∀ x, x ∈ l → ∃ v, key x = ok v) →
  ∃ r rv, py_max key l = ok r ∧ r ∈ l ∧ key r = ok rv
    ∧ ∀ x v, x ∈ l → key x = ok v → v ≤ rv.
Proof.
  destruct l as [|x l]; [done|]. intros _ Hkeys. simpl.
  destruct (Hkeys x) as [v Hv]; [left|]. rewrite Hv. simpl.
  destruct (max_loop_spec key l x v) as (r & rv & -> & Hr & Hle & Hmax).
  { intros; apply Hkeys; by right. }
  exists r, rv. split_and!; [done| | |].
  - destruct Hr as [[-> _]|[? _]]; [left|by right].
  - by destruct Hr as [[-> ->]|[_ ?]].
  - intros y vy [->|Hy]%elem_of_cons Hvy; [|by eapply Hmax].
    rewrite Hv in Hvy. injection Hvy as <-. lia.
Qed.

Abbreviation mfc_body word_counts :=
  (λ (mfc_table : dict string string) (word : string),
     do row <- dlookup word_counts word;
     do tag_val <- py_max (λ k, do row <- dlookup word_counts word; dlookup row k)
                     (dkeys row);
     ok (dset word tag_val mfc_table)).

Lemma mfc_body_spec word_counts tbl word row :
  dget word word_counts = Some row → row ≠ [] →
  ∃ tag, mfc_body word_counts tbl word = ok (dset word tag tbl)
    ∧ most_frequent word_counts word tag.
Proof.
  intros Hrow Hne. unfold dlookup at 1. rewrite Hrow. simpl.
  destruct (py_max_spec (λ k, do row <- dlookup word_counts word; dlookup row k)
              (dkeys row)) as (tag & c & -> & Htag & Hc & Hmax).
  - intros Hnil. by destruct row.
  - intros k [c Hk]%dget_is_Some. exists c. unfold dlookup. by rewrite Hrow; simpl; rewrite Hk.
  - exists tag. split; [done|]. unfold dlookup in Hc. rewrite Hrow in Hc. simpl in Hc.
    destruct (dget tag row) as [c0|] eqn:Hc0; [|done]. injection Hc as ->.
    exists row, c. split_and!; [done..|].
    intros tag' c' Hc'. apply (Hmax tag'); [apply dget_is_Some; eauto|].
    unfold dlookup. by rewrite Hrow; simpl; rewrite Hc'.
Qed.

Lemma build_mfc_table_spec vocab word_counts :
  (∀ w, w ∈ vocab → ∃ row, dget w word_counts = Some row ∧ row ≠ []) →
  ∃ tbl, build_mfc_table vocab word_counts = ok tbl
    ∧ NoDup (dkeys tbl)
    ∧ (∀ w, is_Some (dget w tbl) ↔ w ∈ vocab)
    ∧ ∀ w tag, dget w tbl = Some tag → most_frequent word_counts w tag.
Proof.
  intros Hrows. unfold build_mfc_table.
  destruct (for_each_total
              (λ tbl, NoDup (dkeys tbl)
                      ∧ ∀ w tag, dget w tbl = Some tag → most_frequent word_counts w tag)
              (mfc_body word_counts) (elements vocab))
    with (s := @nil (string * string)) as (tbl & Hrun & Hnd & Hgood).
  - intros tbl word Hword%elem_of_elements [Hnd Hgood].
    destruct (Hrows _ Hword) as (row & Hrow & Hne).
    destruct (mfc_body_spec word_counts tbl word row Hrow Hne) as (tag & -> & Htag).
    eexists. split; [done|]. split; [by apply NoDup_dset|].
    intros w tag'. rewrite dget_dset. case_decide; [|apply Hgood].
    subst. by intros [= <-].
  - split; [apply NoDup_nil_2|done].
  - exists tbl. split_and!; [done..| |done].
    assert (∀ t word t', word ∈ elements vocab → mfc_body word_counts t word = ok t' →
              ∀ k, is_Some (dget k t') ↔ is_Some (dget k t) ∨ k = word) as Hstep.
    { intros t word t' Hword%elem_of_elements Hstep.
      destruct (Hrows _ Hword) as (row & Hrow & Hne).
      destruct (mfc_body_spec word_counts t word row Hrow Hne) as (tag & Hb & _).
      rewrite Hb in Hstep. injection Hstep as <-. intros k.
      rewrite dget_dset. case_decide; [|split; [by left|by intros [?|?]]].
      split; [by right|by eauto]. }
    intros w.
    rewrite (for_each_collect (λ t w, is_Some (dget w t)) (λ word w, w = word)
               _ _ Hstep _ _ Hrun w).
    split.
    + intros [[? [=]]|(x & Hx%elem_of_elements & ->)]. done.
    + intros Hw. right. exists w. by rewrite elem_of_elements.
Qed.

Lemma dget_fold_dset {K U V} `{EqDecision K} (f : U → V) (l : list (K * U)) d0 k :
  NoDup (dkeys l) →
  dget k (fold_left (λ d '(k, u), dset k (f u) d) l d0)
  = match dget k l with Some u => Some (f u) | None => dget k d0 end.
Proof.
  unfold dkeys. revert d0. induction l as [|[k0 u0] l IH]; intros d0 Hnd; [done|].
  rewrite fmap_cons in Hnd. cbn [fst] in Hnd. apply NoDup_cons in Hnd as [Hk0 Hnd].
  cbn [fold_left dget]. rewrite IH by done. case_decide.
  - subst. apply dget_None in Hk0. by rewrite Hk0, dget_dset_eq.
  - by rewrite dget_dset_ne.
Qed.

Lemma NoDup_fold_dset {K U V} `{EqDecision K} (f : U → V) (l : list (K * U)) d0 :
  NoDup (dkeys d0) → NoDup (dkeys (fold_left (λ d '(k, u), dset k (f u) d) l d0)).
Proof.
  revert d0. induction l as [|[k0 u0] l IH]; intros d0 Hnd; [done|].
  simpl. apply IH. by apply NoDup_dset.
Qed.

Lemma mfc_init_agrees tbl : NoDup (dkeys tbl) → mfc_agrees tbl (MFCTagger.init tbl).
Proof.
  intros Hnd w. unfold MFCTagger.init, mfc_answer. simpl.
  rewrite (dget_fold_dset (λ fs : FakeState, fs)) by (apply NoDup_fold_dset, NoDup_nil_2).
  rewrite (dget_fold_dset mkFakeState) by done.
  destruct (dget w tbl); [by left|by right].
Qed.

Lemma mfc_table_getitem_spec tbl self w :
  mfc_agrees tbl self →
  (MFCTagger.table_getitem self w).2 = mfc_answer tbl w
  ∧ mfc_agrees tbl (MFCTagger.table_getitem self w).1.
Proof.
  intros Hag. unfold MFCTagger.table_getitem.
  destruct (Hag w) as [Hw|[Hw Hnone]].
  - by rewrite Hw.
  - rewrite Hnone. simpl. unfold mfc_answer at 1. rewrite Hw. split; [done|].
    intros w'. cbn [MFCTagger.table]. rewrite dget_dset. case_decide; [|apply Hag].
    subst. left. unfold mfc_answer. by rewrite Hw.
Qed.

Lemma mfc_lookup_all_spec tbl self seq :
  mfc_agrees tbl self →
  (MFCTagger.lookup_all self seq).2 = mfc_answer tbl <$> seq
  ∧ mfc_agrees tbl (MFCTagger.lookup_all self seq).1.
Proof.
  revert self. induction seq as [|w seq IH]; intros self Hag; [done|].
  cbn [MFCTagger.lookup_all].
  destruct (mfc_table_getitem_spec tbl self w Hag) as [Hfs Hag1].
  destruct (MFCTagger.table_getitem self w) as [self1 fs]. simpl in Hfs, Hag1.
  destruct (IH self1 Hag1) as [Hrest Hag2].
  destruct (MFCTagger.lookup_all self1 seq) as [self2 rest]. simpl in *.
  by rewrite Hfs, Hrest.
Qed.

Lemma mfc_viterbi_spec tbl self seq :
  mfc_agrees tbl self →
  (MFCTagger.viterbi self seq).2.2
  = enumerate ([ObjStr "<start>"] ++ (ObjFakeState <$> (mfc_answer tbl <$> seq))
               ++ [ObjStr "<end>"])
  ∧ mfc_agrees tbl (MFCTagger.viterbi self seq).1.
Proof.
  intros Hag. unfold MFCTagger.viterbi.
  destruct (mfc_lookup_all_spec tbl self seq Hag) as [Htags Hag1].
  destruct (MFCTagger.lookup_all self seq) as [self1 tags]. simpl in *.
  by rewrite Htags.
Qed.

Lemma mfc_after_agrees tbl self earlier :
  mfc_agrees tbl self → mfc_agrees tbl (mfc_after self earlier).
Proof.
  unfold mfc_after. revert self.
  induction earlier as [|seq earlier IH]; intros self Hag; [done|].
  simpl. apply IH. by apply mfc_viterbi_spec.
Qed.

Lemma mfc_path_lookup tbl seq i w :
  seq !! i = Some w →
  enumerate ([ObjStr "<start>"] ++ (ObjFakeState <$> (mfc_answer tbl <$> seq))
             ++ [ObjStr "<end>"]) !! S i
  = Some (S i, ObjFakeState (mfc_answer tbl w)).
Proof.
  intros Hw. apply (enumerate_from_lookup 0). simpl.
  rewrite lookup_app_l by (rewrite !length_fmap; by eapply lookup_lt_Some).
  by rewrite !list_lookup_fmap, Hw.
Qed.

(** ** The HMM build loop *)

Lemma truediv_ok a b : 0 < b → ∃ p, truediv a b = ok p.
Proof. destruct b; [lia|]. simpl. eauto. Qed.

Lemma dlookup_ok {K V} `{EqDecision K} (d : dict K V) k v :
  dlookup d k = ok v ↔ dget k d = Some v.
Proof. unfold dlookup. destruct (dget k d); split; congruence. Qed.

Abbreviation prob_dist_body total :=
  (λ (prob_dist : dict string Q) '(key, value),
     do p <- truediv value total; ok (dset key p prob_dist)).

Lemma prob_dist_loop total row acc dist :
  NoDup (dkeys row) →
  for_each (prob_dist_body total) acc row = ok dist →
  ∀ word,
    match dget word row with
    | Some c => ∃ p, truediv c total = ok p ∧ dget word dist = Some p
    | None => dget word dist = dget word acc
    end.
Proof.
  unfold dkeys. revert acc. induction row as [|[k v] row IH]; intros acc Hnd Hrun word.
  - simpl in *. by injection Hrun as <-.
  - rewrite fmap_cons in Hnd. cbn [fst] in Hnd. apply NoDup_cons in Hnd as [Hk Hnd].
    cbn [for_each] in Hrun. inv_bind Hrun. inv_bind Ha. injection Ha as <-.
    specialize (IH _ Hnd Hrun). cbn [dget]. case_decide.
    + subst. exists a0. split; [done|]. specialize (IH k).
      apply dget_None in Hk. rewrite Hk in IH. by rewrite IH, dget_dset_eq.
    + specialize (IH word). destruct (dget word row); [done|].
      by rewrite IH, dget_dset_ne.
Qed.

Lemma prob_dist_of_total row total :
  0 < total → ∃ dist, prob_dist_of row total = ok dist.
Proof.
  intros Htotal. unfold prob_dist_of.
  destruct (for_each_total (λ _, True) (prob_dist_body total) row)
    with (s := @nil (string * Q)) as (dist & Hd & _); [|done|by exists dist].
  intros acc [key value] _ _. destruct (truediv_ok value total Htotal) as [p ->].
  simpl. eauto.
Qed.

Section build_facts.
Variables (emission_counts : table2)
          (tag_unigrams : dict string nat)
          (tag_bigrams : dict (string * string) nat)
          (tag_starts tag_ends : dict string nat)
          (len_data_y : nat).

Local Abbreviation state_loop_body :=
  (state_loop_body emission_counts tag_unigrams).
Local Abbreviation transition_loop_body :=
  (transition_loop_body tag_unigrams tag_bigrams tag_starts tag_ends len_data_y).
Local Abbreviation state_built := (state_built emission_counts tag_unigrams).
Local Abbreviation transitions_added :=
  (transitions_added tag_unigrams tag_bigrams tag_starts tag_ends len_data_y).

Lemma state_loop_body_ok st tag st' :
  state_loop_body st tag = ok st' →
  ∃ s, state_built tag s ∧ st' = (dset tag s st.1, add_state st.2 s).
Proof.
  destruct st as [states m]. unfold state_loop_body. intros Hrun.
  apply bind_ok_inv in Hrun as (total & Htotal%dlookup_ok & Hrun).
  apply bind_ok_inv in Hrun as (row & Hrow%dlookup_ok & Hrun).
  apply bind_ok_inv in Hrun as (dist & Hdist & Hrun).
  apply bind_ok_inv in Hrun as (s & Hs%dlookup_ok & Hrun).
  rewrite dget_dset_eq in Hs. injection Hs as <-. injection Hrun as <-.
  eexists. split; [|done]. split; [done|]. by exists total, row.
Qed.

Lemma state_loop_spec keys st :
  for_each state_loop_body ([], new_model "base-hmm-tagger") keys = ok st →
  hmm_edges st.2 = []
  ∧ (∀ tag s, dget tag st.1 = Some s → state_built tag s ∧ s ∈ hmm_states st.2)
  ∧ (∀ tag, is_Some (dget tag st.1) ↔ tag ∈ keys).
Proof.
  intros Hrun. split_and!.
  - revert Hrun. apply (for_each_invariant (λ st, hmm_edges st.2 = [])); [|done].
    by intros st0 tag st1 _ Hst0 (s & _ & ->)%state_loop_body_ok.
  - revert Hrun.
    apply (for_each_invariant
             (λ st, ∀ tag s, dget tag st.1 = Some s
                             → state_built tag s ∧ s ∈ hmm_states st.2)); [|done].
    intros st0 tag st1 _ Hst0 (s & Hs & ->)%state_loop_body_ok tag' s'. simpl.
    rewrite dget_dset, elem_of_app, list_elem_of_singleton. case_decide.
    + subst. intros [= <-]. auto.
    + intros [? ?]%Hst0. auto.
  - assert (∀ st0 key st1, key ∈ keys → state_loop_body st0 key = ok st1 →
              ∀ k, is_Some (dget k st1.1) ↔ is_Some (dget k st0.1) ∨ k = key) as Hstep.
    { intros st0 key st1 _ (s & _ & ->)%state_loop_body_ok k. simpl.
      rewrite dget_dset. case_decide; [|split; [by left|by intros [?|?]]].
      split; [by right|by eauto]. }
    intros tag.
    rewrite (for_each_collect (λ st tag, is_Some (dget tag st.1)) (λ key tag, tag = key)
               _ _ Hstep _ _ Hrun tag).
    simpl. split; [|by eauto]. intros [[? [=]]|(? & ? & ->)]. done.
Qed.
Lemma transition_loop_body_ok states m bigram m' :
  transition_loop_body states m bigram = ok m' →
  ∃ es, transitions_added states bigram es
        ∧ hmm_edges m' = hmm_edges m ++ es ∧ hmm_states m' = hmm_states m.
Proof.
  unfold transition_loop_body. intros Hrun.
  apply bind_ok_inv in Hrun as (c_start & Hcs%dlookup_ok & Hrun).
  apply bind_ok_inv in Hrun as (p_start & Hps & Hrun).
  apply bind_ok_inv in Hrun as (s0 & Hs0%dlookup_ok & Hrun).
  apply bind_ok_inv in Hrun as (c_pair & Hcp%dlookup_ok & Hrun).
  apply bind_ok_inv in Hrun as (total & Htotal%dlookup_ok & Hrun).
  apply bind_ok_inv in Hrun as (p_pair & Hpp & Hrun).
  apply bind_ok_inv in Hrun as (s0' & Hs0'%dlookup_ok & Hrun).
  apply bind_ok_inv in Hrun as (s1 & Hs1%dlookup_ok & Hrun).
  apply bind_ok_inv in Hrun as (c_end & Hce%dlookup_ok & Hrun).
  apply bind_ok_inv in Hrun as (p_end & Hpe & Hrun).
  apply bind_ok_inv in Hrun as (s0'' & Hs0''%dlookup_ok & Hrun).
  injection Hrun as <-. simpl.
  assert (s0' = s0) as -> by congruence. assert (s0'' = s0) as -> by congruence.
  eexists. split_and!; [|by rewrite <- !app_assoc|done].
  by exists s0, s1, c_start, c_pair, total, c_end, p_start, p_pair, p_end.
Qed.

Lemma transition_loop_spec states keys m m' :
  for_each (transition_loop_body states) m keys = ok m' →
  ∃ ess, Forall2 (transitions_added states) keys ess
         ∧ hmm_edges m' = hmm_edges m ++ concat ess
         ∧ hmm_states m' = hmm_states m.
Proof.
  revert m. induction keys as [|bigram keys IH]; intros m Hrun; simpl in Hrun.
  - injection Hrun as <-. exists []. by rewrite app_nil_r.
  - apply bind_ok_inv in Hrun as (m1 & (es & Hes & He & Hs)%transition_loop_body_ok & Hrun).
    destruct (IH _ Hrun) as (ess & Hess & He' & Hs').
    exists (es :: ess). split_and!; [by constructor| |congruence].
    simpl. by rewrite He', He, <- app_assoc.
Qed.

Lemma build_basic_model_ok m :
  build_basic_model emission_counts tag_unigrams tag_bigrams tag_starts tag_ends
    len_data_y = ok m →
  ∃ states ess,
    (∀ tag s, dget tag states = Some s → state_built tag s ∧ s ∈ hmm_states m)
    ∧ (∀ tag, is_Some (dget tag states) ↔ tag ∈ dkeys emission_counts)
    ∧ Forall2 (transitions_added states) (dkeys tag_bigrams) ess
    ∧ hmm_edges m = concat ess.
Proof.
  unfold build_basic_model. intros Hrun.
  apply bind_ok_inv in Hrun as ([states m0] & Hloop1 & Hrun).
  apply bind_ok_inv in Hrun as (m1 & Hloop2 & Hrun). injection Hrun as <-.
  destruct (state_loop_spec _ _ Hloop1) as (Hedges & Hstates & Hkeys). simpl in *.
  destruct (transition_loop_spec _ _ _ _ Hloop2) as (ess & Hess & He & Hs).
  exists states, ess. split_and!; [|done..|by rewrite He, Hedges].
  intros tag s Hs0. rewrite Hs. auto.
Qed.

(** When the tables agree on the tags of [bigram], its pass can only fail on
    [tag_starts] or [tag_ends]. *)
Lemma transition_loop_body_cases states m bigram s0 s1 c total :
  dget bigram.1 states = Some s0 → dget bigram.2 states = Some s1 →
  dget bigram tag_bigrams = Some c →
  dget bigram.1 tag_unigrams = Some total → 0 < total → 0 < len_data_y →
  match dget bigram.1 tag_starts, dget bigram.1 tag_ends with
  | Some _, Some _ => ∃ m', transition_loop_body states m bigram = ok m'
  | _, _ => transition_loop_body states m bigram = raise KeyError
  end.
Proof.
  intros Hs0 Hs1 Hc Htotal Hpos Hlen. unfold transition_loop_body, dlookup.
  destruct (dget bigram.1 tag_starts) as [c_start|]; [|by destruct (dget _ tag_ends)].
  simpl. destruct (truediv_ok c_start len_data_y Hlen) as [p_start ->]. simpl.
  rewrite Hs0, Hc, Htotal. simpl.
  destruct (truediv_ok c total Hpos) as [p_pair ->]. simpl. rewrite Hs1. simpl.
  destruct (dget bigram.1 tag_ends) as [c_end|]; [|done]. simpl.
  destruct (truediv_ok c_end len_data_y Hlen) as [p_end ->]. simpl. eauto.
Qed.

Lemma transition_loop_key_error states keys m :
  (∀ bigram, bigram ∈ keys →
     ∃ s0 s1 c total, dget bigram.1 states = Some s0 ∧ dget bigram.2 states = Some s1
       ∧ dget bigram tag_bigrams = Some c
       ∧ dget bigram.1 tag_unigrams = Some total ∧ 0 < total) →
  0 < len_data_y →
  (∃ bigram, bigram ∈ keys
     ∧ (dget bigram.1 tag_starts = None ∨ dget bigram.1 tag_ends = None)) →
  for_each (transition_loop_body states) m keys = raise KeyError.
Proof.
  intros Hcons Hlen. revert m.
  induction keys as [|bigram keys IH]; intros m (bad & Hbad & Hmiss).
  - by apply elem_of_nil in Hbad.
  - destruct (Hcons bigram) as (s0 & s1 & c & total & Hs0 & Hs1 & Hc & Htotal & Hpos);
      [left|].
    pose proof (transition_loop_body_cases states m bigram s0 s1 c total
                  Hs0 Hs1 Hc Htotal Hpos Hlen) as Hcase.
    simpl. destruct (dget bigram.1 tag_starts) as [cs|] eqn:Hcs;
      [destruct (dget bigram.1 tag_ends) as [ce|] eqn:Hce|]; try by rewrite Hcase.
    destruct Hcase as [m' ->]. simpl. apply IH.
    + intros; apply Hcons; by right.
    + exists bad. split; [|done].
      apply elem_of_cons in Hbad as [->|?]; [|done].
      destruct Hmiss; congruence.
Qed.
Lemma transitions_added_names states bigram es :
  (∀ tag s, dget tag states = Some s → name s = tag) →
  transitions_added states bigram es →
  ∃ s0 s1 p_start p_pair p_end,
    dget bigram.1 states = Some s0 ∧ dget bigram.2 states = Some s1
    ∧ name s0 = bigram.1 ∧ name s1 = bigram.2
    ∧ es = [(model_start, state_node s0, p_start);
            (state_node s0, state_node s1, p_pair);
            (state_node s0, model_end, p_end)].
Proof.
  intros Hnames (s0 & s1 & ? & ? & ? & ? & p_start & p_pair & p_end
                 & Hs0 & Hs1 & _ & _ & _ & _ & _ & _ & _ & ->).
  exists s0, s1, p_start, p_pair, p_end. split_and!; auto.
Qed.

(** Transitions out of [start] into the state of [t]: one per bigram that
    begins with [t], all with the probability [p]. *)
Lemma start_transitions_count states keys ess t st c p :
  (∀ tag s, dget tag states = Some s → name s = tag) →
  Forall2 (transitions_added states) keys ess →
  dget t states = Some st → dget t tag_starts = Some c →
  truediv c len_data_y = ok p →
  filter (λ e, e.1 = (model_start, state_node st)) (concat ess)
  = replicate (length (filter (λ bigram, bigram.1 = t) keys))
      (model_start, state_node st, p).
Proof.
  intros Hnames Hess Hst Hc Hp.
  induction Hess as [|bigram es keys ess Hes _ IH]; [done|].
  simpl. rewrite filter_app, IH. clear IH.
  destruct Hes as (s0 & s1 & c_start & ? & ? & ? & p_start & ? & ?
                   & Hs0 & Hs1 & Hcs & Hps & _ & _ & _ & _ & _ & ->).
  rewrite filter_cons. rewrite !filter_cons_False, filter_nil by (simpl; congruence).
  rewrite (filter_cons (λ bg : string * string, bg.1 = t)). simpl.
  destruct (decide (bigram.1 = t)) as [Ht|Ht].
  - rewrite Ht in *. assert (s0 = st) as -> by congruence.
    assert (p_start = p) as -> by congruence.
    by rewrite decide_True.
  - rewrite decide_False; [done|].
    intros [= ->]. apply Ht. rewrite <- (Hnames _ _ Hs0). by apply Hnames.
Qed.

Lemma end_transitions_count states keys ess t st c p :
  (∀ tag s, dget tag states = Some s → name s = tag) →
  Forall2 (transitions_added states) keys ess →
  dget t states = Some st → dget t tag_ends = Some c →
  truediv c len_data_y = ok p →
  filter (λ e, e.1 = (state_node st, model_end)) (concat ess)
  = replicate (length (filter (λ bigram, bigram.1 = t) keys))
      (state_node st, model_end, p).
Proof.
  intros Hnames Hess Hst Hc Hp.
  induction Hess as [|bigram es keys ess Hes _ IH]; [done|].
  simpl. rewrite filter_app, IH. clear IH.
  destruct Hes as (s0 & s1 & ? & ? & ? & c_end & ? & ? & p_end
                   & Hs0 & Hs1 & _ & _ & _ & _ & _ & Hce & Hpe & ->).
  rewrite !filter_cons_False by (simpl; congruence).
  rewrite filter_cons, filter_nil.
  rewrite (filter_cons (λ bg : string * string, bg.1 = t)). simpl.
  destruct (decide (bigram.1 = t)) as [Ht|Ht].
  - rewrite Ht in *. assert (s0 = st) as -> by congruence.
    assert (p_end = p) as -> by congruence.
    by rewrite decide_True.
  - rewrite decide_False; [done|].
    intros [= ->]. apply Ht. rewrite <- (Hnames _ _ Hs0). by apply Hnames.
Qed.

Lemma pair_transitions_count states keys ess t u st su :
  (∀ tag s, dget tag states = Some s → name s = tag) →
  Forall2 (transitions_added states) keys ess →
  dget t states = Some st → dget u states = Some su →
  length (filter (λ e, e.1 = (state_node st, state_node su)) (concat ess))
  = length (filter (λ bigram, bigram = (t, u)) keys).
Proof.
  intros Hnames Hess Hst Hsu.
  induction Hess as [|bigram es keys ess Hes _ IH]; [done|].
  simpl. rewrite filter_app, length_app, IH. clear IH.
  destruct (transitions_added_names _ _ _ Hnames Hes)
    as (s0 & s1 & ? & ? & ? & Hs0 & Hs1 & Hn0 & Hn1 & ->).
  rewrite filter_cons_False by (simpl; congruence).
  rewrite filter_cons, filter_cons_False, filter_nil by (simpl; congruence).
  rewrite (filter_cons (λ bg : string * string, bg = (t, u))). simpl.
  destruct (decide (bigram = (t, u))) as [->|Hne].
  - simpl in *. assert (s0 = st) as -> by congruence.
    assert (s1 = su) as -> by congruence. by rewrite decide_True.
  - rewrite decide_False; [done|].
    intros [= -> ->]. apply Hne. destruct bigram as [b0 b1]. simpl in *.
    rewrite <- Hn0, <- Hn1. f_equal; by apply Hnames.
Qed.
End build_facts.

Lemma filter_eq_NoDup {A} `{EqDecision A} (x : A) l :
  NoDup l → x ∈ l → length (filter (λ y, y = x) l) = 1.
Proof.
  induction 1 as [|y l Hy Hnd IH]; intros Hx; [by apply elem_of_nil in Hx|].
  rewrite filter_cons. case_decide as Hyx.
  - subst y. simpl. f_equal.
    assert (filter (λ y, y = x) l = []) as ->; [|done].
    clear -Hy. induction l as [|z l IHl]; [done|]. rewrite filter_cons_False.
    + apply IHl. intros ?; apply Hy; by right.
    + intros ->. apply Hy. left.
  - apply IH. by apply elem_of_cons in Hx as [->|?].
Qed.

Lemma train_basic_model_ok X Y m :
  train_basic_model X Y = ok m →
  ∃ emission_counts tag_bigrams tag_starts tag_ends,
    pair_counts Y X = ok emission_counts
    ∧ bigram_counts Y = ok tag_bigrams
    ∧ starting_counts Y = ok tag_starts
    ∧ ending_counts Y = ok tag_ends
    ∧ build_basic_model emission_counts (unigram_counts Y) tag_bigrams
        tag_starts tag_ends (length Y) = ok m.
Proof.
  unfold train_basic_model. intros Hrun.
  apply bind_ok_inv in Hrun as (emission_counts & Hem & Hrun).
  apply bind_ok_inv in Hrun as (tag_bigrams & Hbi & Hrun).
  apply bind_ok_inv in Hrun as (tag_starts & Hst & Hrun).
  apply bind_ok_inv in Hrun as (tag_ends & Hen & Hrun).
  by exists emission_counts, tag_bigrams, tag_starts, tag_ends.
Qed.

Lemma bigram_counts_is_Some sequences d a b :
  bigram_counts sequences = ok d →
  is_Some (dget (a, b) d)
  ↔ ∃ sentence k, sentence ∈ sequences
      ∧ sentence !! k = Some a ∧ sentence !! S k = Some b.
Proof.
  intros Hd. destruct (bigram_counts_shape _ _ Hd) as [_ Hpos].
  rewrite (dpos_dget d (a, b) Hpos), (bigram_counts_dcount _ _ a b Hd).
  case_decide as Hz.
  - split; [by intros [? ?]|]. intros (sentence & k & Hs & Hk).
    assert (0 < sum_list_with (adjacent_in a b) sequences); [|lia].
    apply sum_list_with_pos. exists sentence. split; [done|].
    apply adjacent_in_pos. eauto.
  - split; [intros _|by eauto].
    destruct (proj1 (sum_list_with_pos (adjacent_in a b) sequences))
      as (sentence & Hs & Hp); [lia|].
    apply adjacent_in_pos in Hp as (k & ? & ?). eauto.
Qed.

(** ** [unigram_counts], [starting_counts], [ending_counts] *)

Lemma fold_left_invariant {A S} (I : S → Prop) (f : S → A → S) l :
  (∀ s x, x ∈ l → I s → I (f s x)) → ∀ s, I s → I (fold_left f l s).
Proof.
  intros Hstep s Hs.
  apply (for_each_invariant I (λ s x, ok (f s x)) l) with (s := s);
    [|done|apply for_each_pure].
  intros s0 x s1 Hx Hs0 [= <-]. by apply Hstep.
Qed.

Lemma fold_left_collect {A S K} (has : S → K → Prop) (hit : A → K → Prop)
    (f : S → A → S) l :
  (∀ s x k, x ∈ l → has (f s x) k ↔ has s k ∨ hit x k) →
  ∀ s k, has (fold_left f l s) k ↔ has s k ∨ ∃ x, x ∈ l ∧ hit x k.
Proof.
  intros Hstep s k.
  apply (for_each_collect has hit (λ s x, ok (f s x)) l) with (s := s);
    [|apply for_each_pure].
  intros s0 x s1 Hx [= <-] k0. by apply Hstep.
Qed.

Lemma unigram_counts_dpos sequences : dpos (unigram_counts sequences).
Proof.
  unfold unigram_counts. apply (fold_left_invariant dpos); [|by intros ??].
  intros d [i sentence] _ Hd. apply (fold_left_invariant dpos); [|done].
  intros d0 [j y] _ Hd0. by apply dpos_count_store.
Qed.

Lemma unigram_counts_keys sequences y :
  is_Some (dget y (unigram_counts sequences)) ↔ y ∈ concat sequences.
Proof.
  unfold unigram_counts.
  rewrite (fold_left_collect (λ (d : dict string nat) y, is_Some (dget y d))
             (λ (p : nat * list string) y, y ∈ p.2)).
  - unfold enumerate. rewrite (enumerate_exists (λ s, y ∈ s)), elem_of_concat.
    simpl. split; [|by right]. intros [[? [=]]|?]. done.
  - intros d [i sentence] k _. simpl.
    rewrite (fold_left_collect (λ (d : dict string nat) y, is_Some (dget y d))
               (λ (q : nat * string) y, y = q.2)).
    + unfold enumerate. rewrite (enumerate_exists (λ x, k = x)).
      split; (intros [?|H]; [by left|right]).
      * by destruct H as (x & ? & ->).
      * eauto.
    + intros d0 [j x] k0 _. apply count_store_is_Some.
Qed.

Lemma getitem_int_last {A} (l : list A) :
  getitem_int l (Z.of_nat (length l) - 1)
  = match last l with Some x => ok x | None => raise IndexError end.
Proof.
  unfold getitem_int, getitem. rewrite last_lookup.
  destruct l as [|x l]; [done|].
  replace (Z.of_nat (length (x :: l)) - 1)%Z with (Z.of_nat (length l))
    by (simpl length; lia).
  destruct (Z.ltb_spec (Z.of_nat (length l)) 0); [lia|].
  destruct (Z.leb_spec 0 (Z.of_nat (length l))); [|lia].
  destruct (Z.ltb_spec (Z.of_nat (length l)) (Z.of_nat (length (x :: l))));
    [|simpl length in *; lia].
  by rewrite Nat2Z.id.
Qed.

Abbreviation starting_body :=
  (λ (starting_counts : dict string nat) '((i, sentence) : nat * list string),
     do first <- getitem sentence 0; ok (count_store starting_counts first)).
Abbreviation ending_body :=
  (λ (ending_counts : dict string nat) '((i, sentence) : nat * list string),
     let indexVal := (Z.of_nat (length sentence) - 1)%Z in
     do last <- getitem_int sentence indexVal;
     ok (count_store ending_counts last)).

Lemma starting_body_ok d p d' :
  starting_body d p = ok d' → ∃ t, head p.2 = Some t ∧ d' = count_store d t.
Proof.
  destruct p as [i [|t sentence]]; simpl; [done|]. intros [= <-]. eauto.
Qed.

Lemma ending_body_ok d p d' :
  ending_body d p = ok d' → ∃ t, last p.2 = Some t ∧ d' = count_store d t.
Proof.
  destruct p as [i sentence]. cbv zeta. rewrite getitem_int_last. simpl.
  destruct (last sentence) as [t|]; simpl; [|done]. intros [= <-]. eauto.
Qed.

Lemma starting_counts_total sequences :
  Forall (λ sentence, sentence ≠ []) sequences →
  ∃ d, starting_counts sequences = ok d.
Proof.
  intros Hne. unfold starting_counts.
  destruct (for_each_total (λ _, True) starting_body (enumerate sequences))
    with (s := @nil (string * nat)) as (d & Hd & _); [|done|by exists d].
  intros d [i sentence] Hs%enumerate_elem _.
  eapply Forall_lookup_1 in Hne; [|done]. destruct sentence; [done|].
  simpl. eauto.
Qed.

Lemma ending_counts_total sequences :
  Forall (λ sentence, sentence ≠ []) sequences →
  ∃ d, ending_counts sequences = ok d.
Proof.
  intros Hne. unfold ending_counts.
  destruct (for_each_total (λ _, True) ending_body (enumerate sequences))
    with (s := @nil (string * nat)) as (d & Hd & _); [|done|by exists d].
  intros d [i sentence] Hs%enumerate_elem _.
  eapply Forall_lookup_1 in Hne; [|done]. cbv zeta. rewrite getitem_int_last.
  destruct (last sentence) as [t|] eqn:Hlast; [simpl; eauto|].
  by apply last_None in Hlast.
Qed.

Lemma starting_counts_keys sequences d t :
  starting_counts sequences = ok d →
  is_Some (dget t d) ↔ ∃ sentence, sentence ∈ sequences ∧ head sentence = Some t.
Proof.
  unfold starting_counts. intros Hrun.
  assert (∀ d0 p d1, p ∈ enumerate sequences → starting_body d0 p = ok d1 →
            ∀ k, is_Some (dget k d1) ↔ is_Some (dget k d0) ∨ head p.2 = Some k)
    as Hstep.
  { intros d0 p d1 _ (t' & Ht' & ->)%starting_body_ok k.
    rewrite count_store_is_Some, Ht'. split; (intros [?|?]; [by left|right]); congruence. }
  rewrite (for_each_collect (λ (d : dict string nat) t, is_Some (dget t d))
             (λ (p : nat * list string) t, head p.2 = Some t) _ _ Hstep _ _ Hrun t).
  unfold enumerate. rewrite (enumerate_exists (λ s, head s = Some t)).
  simpl. split; [|by right]. intros [[? [=]]|?]. done.
Qed.

Lemma ending_counts_keys sequences d t :
  ending_counts sequences = ok d →
  is_Some (dget t d) ↔ ∃ sentence, sentence ∈ sequences ∧ last sentence = Some t.
Proof.
  unfold ending_counts. intros Hrun.
  assert (∀ d0 p d1, p ∈ enumerate sequences → ending_body d0 p = ok d1 →
            ∀ k, is_Some (dget k d1) ↔ is_Some (dget k d0) ∨ last p.2 = Some k)
    as Hstep.
  { intros d0 p d1 _ (t' & Ht' & ->)%ending_body_ok k.
    rewrite count_store_is_Some, Ht'. split; (intros [?|?]; [by left|right]); congruence. }
  rewrite (for_each_collect (λ (d : dict string nat) t, is_Some (dget t d))
             (λ (p : nat * list string) t, last p.2 = Some t) _ _ Hstep _ _ Hrun t).
  unfold enumerate. rewrite (enumerate_exists (λ s, last s = Some t)).
  simpl. split; [|by right]. intros [[? [=]]|?]. done.
Qed.

(** The first loop of the build cannot fail when every tag of the emission
    table has a positive unigram count. *)
Lemma state_loop_total emission_counts tag_unigrams st :
  (∀ tag, tag ∈ dkeys emission_counts →
     ∃ total, dget tag tag_unigrams = Some total ∧ 0 < total) →
  ∃ st', for_each (state_loop_body emission_counts tag_unigrams) st
           (dkeys emission_counts) = ok st'.
Proof.
  intros Hcons.
  destruct (for_each_total (λ _, True)
              (state_loop_body emission_counts tag_unigrams) (dkeys emission_counts))
    with (s := st) as (st' & Hst' & _); [|done|by exists st'].
  intros [states m] tag Htag _. destruct (Hcons _ Htag) as (total & Htotal & Hpos).
  apply dget_is_Some in Htag as [row Hrow].
  destruct (prob_dist_of_total row total Hpos) as [dist Hdist].
  unfold state_loop_body, dlookup. rewrite Htotal, Hrow. simpl. rewrite Hdist. simpl.
  rewrite dget_dset_eq. simpl. eauto.
Qed.

(** ** Cell by cell: what the count tables hold *)

Lemma fold_left_measure {A S} (μ : S → nat) (w : A → nat) (f : S → A → S) l :
  (∀ s x, x ∈ l → μ (f s x) = μ s + w x) →
  ∀ s, μ (fold_left f l s) = μ s + sum_list_with w l.
Proof.
  intros Hstep s.
  apply (for_each_measure μ w (λ s x, ok (f s x)) l); [|apply for_each_pure].
  intros s0 x s1 Hx [= <-]. by apply Hstep.
Qed.

Lemma occurrences_cons {A} `{EqDecision A} (x y : A) l :
  occurrences x (y :: l) = (if decide (y = x) then 1 else 0) + occurrences x l.
Proof. unfold occurrences. rewrite filter_cons. by case_decide. Qed.

Lemma occurrences_app {A} `{EqDecision A} (x : A) l1 l2 :
  occurrences x (l1 ++ l2) = occurrences x l1 + occurrences x l2.
Proof. unfold occurrences. by rewrite filter_app, length_app. Qed.

Lemma occurrences_pos {A} `{EqDecision A} (x : A) l :
  0 < occurrences x l ↔ x ∈ l.
Proof.
  induction l as [|y l IH]; [by split; [inversion 1|intros ?%elem_of_nil]|].
  rewrite occurrences_cons, elem_of_cons. case_decide.
  - subst. split; [by left|lia].
  - simpl. rewrite IH. split; [by right|]. by intros [->|?].
Qed.

Lemma occurrences_enumerate {A} `{EqDecision A} (x : A) n (l : list A) :
  sum_list_with (λ p : nat * A, if decide (p.2 = x) then 1 else 0) (enumerate_from n l)
  = occurrences x l.
Proof.
  revert n. induction l as [|y l IH]; intros n; [done|].
  rewrite occurrences_cons. simpl. by rewrite IH.
Qed.

Lemma occurrences_concat {A} `{EqDecision A} (x : A) (ls : list (list A)) :
  sum_list_with (occurrences x) ls = occurrences x (concat ls).
Proof.
  induction ls as [|l ls IH]; [done|]. simpl. by rewrite occurrences_app, IH.
Qed.

Lemma stored_dcount {K} `{EqDecision K} (d : dict K nat) k :
  dpos d → dget k d = stored (dcount d k).
Proof. intros Hd. unfold stored. by apply dpos_dget. Qed.

Lemma cell_pair_store r a t a' b' :
  cell (pair_store r a t) a' b'
  = cell r a' b' + (if decide (a' = a ∧ b' = t) then 1 else 0).
Proof.
  unfold cell, pair_store, dcount.
  destruct (dget a r) as [row|] eqn:Ha; [destruct (dget t row) as [c|] eqn:Ht|];
    rewrite dget_dset; destruct (decide (a' = a)) as [->|Hne];
    rewrite ?Ha; simpl; rewrite ?dget_dset;
    repeat (case_decide; simplify_eq/=); rewrite ?Ht; simpl;
    try lia; try (destruct (dget a' r); simpl; lia); naive_solver.
Qed.

Lemma row_total_pair_store r a t a' :
  row_total (pair_store r a t) a'
  = row_total r a' + (if decide (a' = a) then 1 else 0).
Proof.
  unfold row_total, pair_store.
  destruct (dget a r) as [row|] eqn:Ha.
  - pose proof (sum_dset (λ c : nat, c) t) as Hi.
    destruct (dget t row) as [c|] eqn:Ht; rewrite dget_dset; case_decide; subst;
      rewrite ?Ha; try lia.
    + specialize (Hi (c + 1) row). rewrite Ht in Hi. simpl in Hi.
      change (sum_list_with snd) with (sum_list_with (λ p : string * nat, p.2)). lia.
    + specialize (Hi 1 row). rewrite Ht in Hi. simpl in Hi.
      change (sum_list_with snd) with (sum_list_with (λ p : string * nat, p.2)). lia.
  - rewrite dget_dset. case_decide; subst; rewrite ?Ha; simpl; lia.
Qed.

Lemma pair_store_pos r a t : table2_pos r → table2_pos (pair_store r a t).
Proof.
  intros Hr a' row'. unfold pair_store.
  destruct (dget a r) as [row|] eqn:Ha; [destruct (dget t row) as [c|] eqn:Ht|];
    rewrite dget_dset; case_decide; try apply Hr; intros [= <-] k c';
    rewrite ?dget_dset; simpl; repeat case_decide; try (intros [= <-]; lia);
    try done; by apply (Hr _ _ Ha).
Qed.

Lemma pair_counts_pos A B r : pair_counts A B = ok r → table2_pos r.
Proof.
  unfold pair_counts. apply (for_each_invariant table2_pos); [|by intros ??].
  intros s [x1 sentence] s' _ Hs.
  apply (for_each_invariant table2_pos); [|done].
  intros s0 p s0' _ Hs0 [t ->]%pair_inner_step. by apply pair_store_pos.
Qed.

Lemma pair_inner_cell B x1 a b sentence n r r' :
  for_each (pair_inner B x1) r (enumerate_from n sentence) = ok r' →
  cell r' a b
  = cell r a b + occurrences (a, b) (zip sentence (drop n (default [] (B !! x1)))).
Proof.
  revert n r. induction sentence as [|x sentence IH]; intros n r Hrun.
  - injection Hrun as <-. cbn. lia.
  - cbn [enumerate_from for_each] in Hrun.
    apply bind_ok_inv in Hrun as (r1 & Hstep & Hrun).
    apply bind_ok_inv in Hstep as (row & Hrow & Hstep).
    apply bind_ok_inv in Hstep as (t & Ht & Hstep). injection Hstep as <-.
    unfold getitem in Hrow, Ht.
    destruct (B !! x1) as [row'|]; [|done]. injection Hrow as ->.
    destruct (row !! n) as [t'|] eqn:Hn; [|done]. injection Ht as ->.
    rewrite (IH _ _ Hrun), cell_pair_store. simpl.
    rewrite (drop_S _ _ _ Hn). cbn [zip zip_with]. rewrite occurrences_cons.
    assert ((if decide (a = x ∧ b = t) then 1 else 0)
            = (if decide ((x, t) = (a, b)) then 1 else 0)) as ->; [|lia].
    apply decide_ext. split; [by intros [-> ->]|by intros [= -> ->]].
Qed.

Lemma aligned_pairs_enumerate a b n (A B : list (list string)) :
  sum_list_with
    (λ p : nat * list string,
       occurrences (a, b) (zip p.2 (default [] (B !! p.1))))
    (enumerate_from n A)
  = occurrences (a, b) (aligned_pairs A (drop n B)).
Proof.
  unfold aligned_pairs. revert n. induction A as [|sa A IH]; intros n; [done|].
  cbn [enumerate_from sum_list_with fst snd]. rewrite IH.
  destruct (B !! n) as [sb|] eqn:Hn.
  - rewrite (drop_S _ _ _ Hn). cbn [zip_with concat default].
    by rewrite occurrences_app.
  - apply lookup_ge_None in Hn.
    rewrite !drop_ge by lia. by destruct sa, A.
Qed.

Lemma pair_counts_cell A B r a b :
  pair_counts A B = ok r → cell r a b = occurrences (a, b) (aligned_pairs A B).
Proof.
  unfold pair_counts. intros Hrun.
  apply (for_each_measure (λ r, cell r a b)
           (λ p, occurrences (a, b) (zip p.2 (default [] (B !! p.1))))) in Hrun.
  - rewrite Hrun. unfold enumerate. by rewrite aligned_pairs_enumerate.
  - intros s [x1 sentence] s' _ Hin. simpl.
    by rewrite (pair_inner_cell _ _ a b _ _ _ _ Hin).
Qed.

Lemma pair_counts_row_total A B r a :
  pair_counts A B = ok r → row_total r a = occurrences a (concat A).
Proof.
  unfold pair_counts. intros Hrun.
  apply (for_each_measure (λ r, row_total r a) (λ p, occurrences a p.2)) in Hrun.
  - rewrite Hrun. unfold enumerate.
    rewrite (sum_list_with_enumerate (occurrences a)). apply occurrences_concat.
  - intros s [x1 sentence] s' _ Hin. simpl.
    rewrite <- (occurrences_enumerate a 0 sentence).
    refine (for_each_measure (λ r, row_total r a) _ (pair_inner B x1) _ _ s s' Hin).
    intros s0 p s1 _ [t ->]%pair_inner_step. rewrite row_total_pair_store.
    f_equal. apply decide_ext. split; congruence.
Qed.

Lemma occurrences_zip_swap (a b : string) (l k : list string) :
  occurrences (b, a) (zip k l) = occurrences (a, b) (zip l k).
Proof.
  revert k. induction l as [|x l IH]; intros [|y k]; try done.
  cbn [zip zip_with]. rewrite !occurrences_cons, <- (IH k). f_equal.
  apply decide_ext. split; intros [= -> ->]; done.
Qed.

Lemma aligned_pairs_swap (a b : string) (A B : list (list string)) :
  occurrences (b, a) (aligned_pairs B A) = occurrences (a, b) (aligned_pairs A B).
Proof.
  unfold aligned_pairs. revert B. induction A as [|sa A IH]; intros [|sb B]; try done.
  cbn [zip_with concat]. by rewrite !occurrences_app, IH, occurrences_zip_swap.
Qed.

Lemma unigram_counts_dcount sequences y :
  dcount (unigram_counts sequences) y = occurrences y (concat sequences).
Proof.
  unfold unigram_counts.
  rewrite (fold_left_measure (λ d : dict string nat, dcount d y)
             (λ p : nat * list string, occurrences y p.2)).
  - unfold enumerate. rewrite (sum_list_with_enumerate (occurrences y)).
    apply occurrences_concat.
  - intros d [i sentence] _. simpl.
    rewrite <- (occurrences_enumerate y 0 sentence).
    apply (fold_left_measure (λ d : dict string nat, dcount d y)).
    intros d0 [j x] _. rewrite dcount_count_store. simpl.
    f_equal. apply decide_ext. split; congruence.
Qed.

Lemma count_store_sum {K} `{EqDecision K} (d : dict K nat) (y : K) :
  sum_list_with snd (count_store d y) = sum_list_with snd d + 1.
Proof.
  unfold count_store. pose proof (sum_dset (λ c : nat, c) y) as H.
  change (sum_list_with snd) with (sum_list_with (λ p : K * nat, p.2)).
  destruct (dget y d) as [c|] eqn:Hy.
  - specialize (H (c + 1) d). rewrite Hy in H. simpl in H. lia.
  - specialize (H 1 d). rewrite Hy in H. simpl in H. lia.
Qed.

(** A loop that stores one picked element of each sentence. *)
Lemma pick_loop_spec (sel : list string → option string)
    (body : list (string * nat) → nat * list string → result (list (string * nat)))
    (sequences : list (list string)) d :
  (∀ d0 p d1, body d0 p = ok d1 → ∃ t, sel p.2 = Some t ∧ d1 = count_store d0 t) →
  for_each body [] (enumerate sequences) = ok d →
  dpos d
  ∧ (∀ t, dcount d t = occurrences (Some t) (sel <$> sequences))
  ∧ sum_list_with snd d = length sequences
  ∧ Forall (λ sentence, is_Some (sel sentence)) sequences.
Proof.
  intros Hbody Hrun. split_and!.
  - revert Hrun. apply (for_each_invariant dpos); [|by intros ??].
    intros d0 p d1 _ Hd0 (t & _ & ->)%Hbody. by apply dpos_count_store.
  - intros t.
    assert (∀ d0 p d1, p ∈ enumerate sequences → body d0 p = ok d1 →
              dcount d1 t = dcount d0 t + (if decide (sel p.2 = Some t) then 1 else 0))
      as Hstep.
    { intros d0 p d1 _ (t' & Ht' & ->)%Hbody. rewrite dcount_count_store, Ht'.
      f_equal. apply decide_ext. split; congruence. }
    rewrite (for_each_measure (λ d, dcount d t) _ _ _ Hstep _ _ Hrun).
    unfold enumerate.
    assert (∀ n, sum_list_with
                   (λ p : nat * list string, if decide (sel p.2 = Some t) then 1 else 0)
                   (enumerate_from n sequences)
                 = occurrences (Some t) (sel <$> sequences)) as Haux.
    { clear. induction sequences as [|s l IH]; intros n; [done|].
      rewrite fmap_cons, occurrences_cons. simpl. by rewrite IH. }
    by rewrite Haux.
  - assert (∀ d0 p d1, p ∈ enumerate sequences → body d0 p = ok d1 →
              sum_list_with snd d1 = sum_list_with snd d0 + 1) as Hstep.
    { intros d0 p d1 _ (t' & _ & ->)%Hbody. apply count_store_sum. }
    rewrite (for_each_measure (λ d : list (string * nat), sum_list_with snd d)
               (λ _, 1) _ _ Hstep _ _ Hrun).
    unfold enumerate. rewrite (sum_list_with_enumerate (λ _, 1)).
    clear. induction sequences as [|s l IH]; [done|]. simpl in *. by rewrite <- IH.
  - apply Forall_forall. intros sentence [i Hi]%list_elem_of_lookup.
    apply enumerate_lookup_elem in Hi.
    destruct (for_each_ok_elem _ _ _ _ _ Hrun Hi) as (d0 & d1 & Hstep).
    apply Hbody in Hstep as (t & Ht & _). simpl in Ht. eauto.
Qed.

Lemma starting_counts_raise sequences e :
  starting_counts sequences = raise e → e = IndexError.
Proof.
  unfold starting_counts. intros Hrun.
  eapply (for_each_raise (λ e, e = IndexError)); [|exact Hrun].
  intros d [i [|t sentence]] e' _; simpl; [by intros [= <-]|done].
Qed.

Lemma ending_counts_raise sequences e :
  ending_counts sequences = raise e → e = IndexError.
Proof.
  unfold ending_counts. intros Hrun.
  eapply (for_each_raise (λ e, e = IndexError)); [|exact Hrun].
  intros d [i sentence] e' _. cbv zeta. rewrite getitem_int_last.
  destruct (last sentence); simpl; [done|by intros [= <-]].
Qed.

Lemma bigram_counts_sum sequences d :
  bigram_counts sequences = ok d →
  sum_list_with snd d = sum_list_with (λ sentence, length sentence - 1) sequences.
Proof.
  unfold bigram_counts. intros Hrun.
  apply (for_each_measure (λ d : list (string * string * nat), sum_list_with snd d)
           (λ p : nat * list string, length p.2 - 1)) in Hrun.
  - rewrite Hrun. unfold enumerate.
    by rewrite (sum_list_with_enumerate (λ sentence : list string, length sentence - 1)).
  - intros d0 [i sentence] d1 _ Hin. simpl.
    apply (for_each_measure (λ d : list (string * string * nat), sum_list_with snd d)
             (λ _, 1)) in Hin.
    + rewrite Hin. f_equal. generalize (length sentence - 1). clear.
      intros n. generalize 0 at 2. induction n as [|n IH]; intros k; [done|].
      simpl. by rewrite IH.
    + intros d2 y d3 _ (a' & b' & _ & _ & ->)%bigram_inner_step.
      apply count_store_sum.
Qed.

Lemma cell_stored r a b :
  table2_pos r → dget a r ≫= dget b = stored (cell r a b).
Proof.
  intros Hpos. unfold cell. destruct (dget a r) as [row|] eqn:Ha; [|done].
  simpl. apply stored_dcount. by eapply Hpos.
Qed.

(** ** Pairs, sentence ends and unigrams *)

Lemma sum_list_with_enumerate_by {A} (w' : nat * A → nat) (w : A → nat) n l :
  (∀ p, w' p = w p.2) →
  sum_list_with w' (enumerate_from n l) = sum_list_with w l.
Proof.
  intros Hw. revert n. induction l as [|x l IH]; intros n; simpl; [done|].
  by rewrite Hw, IH.
Qed.

Lemma for_each_ext {A S} (f g : S → A → result S) l :
  (∀ s x, f s x = g s x) → ∀ s, for_each f s l = for_each g s l.
Proof.
  intros Hfg. induction l as [|x l IH]; intros s; simpl; [done|].
  rewrite Hfg. destruct (g s x); simpl; [done|]. apply IH.
Qed.

Lemma sum_if_dset {K} `{EqDecision K} (P : K → Prop) `{∀ k, Decision (P k)}
    (k : K) (v : nat) (d : dict K nat) :
  sum_list_with (λ p, if decide (P p.1) then p.2 else 0) (dset k v d)
  + (if decide (P k) then default 0 (dget k d) else 0)
  = sum_list_with (λ p, if decide (P p.1) then p.2 else 0) d
    + (if decide (P k) then v else 0).
Proof.
  induction d as [|[k0 v0] d IH]; simpl.
  - case_decide; lia.
  - destruct (decide (k = k0)) as [->|Hne]; simpl.
    + case_decide; lia.
    + lia.
Qed.

Lemma first_total_count_store d a b t :
  first_total (count_store d (a, b)) t
  = first_total d t + (if decide (a = t) then 1 else 0).
Proof.
  unfold first_total, count_store.
  pose proof (sum_if_dset (λ k : string * string, k.1 = t) (a, b)) as H.
  destruct (dget (a, b) d) as [c|] eqn:Hc.
  - specialize (H (c + 1) d). rewrite Hc in H. simpl in H. case_decide; lia.
  - specialize (H 1 d). rewrite Hc in H. simpl in H. case_decide; lia.
Qed.

(** In a non-empty sentence, the positions that begin a pair are all but the
    last one. *)
Lemma occurrences_split_last (t : string) (sentence : list string) :
  sentence ≠ [] →
  sum_list_with (λ y, if decide (sentence !! y = Some t) then 1 else 0)
    (seq 0 (length sentence - 1))
  + (if decide (last sentence = Some t) then 1 else 0)
  = occurrences t sentence.
Proof.
  induction sentence as [|x rest IH]; [done|]. intros _.
  destruct rest as [|x' rest].
  - rewrite occurrences_cons. simpl.
    assert ((if decide (Some x = Some t) then 1 else 0)
            = (if decide (x = t) then 1 else 0)) as ->; [|unfold occurrences; simpl; lia].
    apply decide_ext. split; congruence.
  - rewrite occurrences_cons, <- IH by done. clear IH.
    replace (length (x :: x' :: rest) - 1) with (S (length (x' :: rest) - 1))
      by (simpl; lia).
    rewrite <- cons_seq, <- fmap_S_seq. cbn [sum_list_with].
    change (last (x :: x' :: rest)) with (last (x' :: rest)).
    assert ((if decide ((x :: x' :: rest) !! 0 = Some t) then 1 else 0)
            = (if decide (x = t) then 1 else 0)) as ->.
    { apply decide_ext. simpl. split; congruence. }
    assert (∀ l, sum_list_with
                   (λ y, if decide ((x :: x' :: rest) !! y = Some t) then 1 else 0)
                   (S <$> l)
                 = sum_list_with
                     (λ y, if decide ((x' :: rest) !! y = Some t) then 1 else 0) l)
      as ->; [|lia].
    intros l. induction l as [|y l IHl]; [done|]. rewrite fmap_cons.
    cbn [sum_list_with]. by rewrite IHl.
Qed.

Lemma bigram_counts_first_total sequences d t :
  bigram_counts sequences = ok d →
  first_total d t
  = sum_list_with
      (λ sentence,
         sum_list_with (λ y, if decide (sentence !! y = Some t) then 1 else 0)
           (seq 0 (length sentence - 1)))
      sequences.
Proof.
  unfold bigram_counts. intros Hrun.
  assert (∀ d0 (p : nat * list string) d1, p ∈ enumerate sequences →
            for_each (bigram_inner p.2) d0 (seq 0 (length p.2 - 1)) = ok d1 →
            first_total d1 t
            = first_total d0 t
              + sum_list_with (λ y, if decide (p.2 !! y = Some t) then 1 else 0)
                  (seq 0 (length p.2 - 1))) as Hstep.
  { intros d0 [i sentence] d1 _ Hin. simpl in *.
    refine (for_each_measure (λ d, first_total d t) _ (bigram_inner sentence)
              _ _ d0 d1 Hin).
    intros d2 y d3 _ (a' & b' & Ha & _ & ->)%bigram_inner_step.
    rewrite first_total_count_store, Ha. f_equal.
    apply decide_ext. split; congruence. }
  assert (for_each (λ d (p : nat * list string),
                      for_each (bigram_inner p.2) d (seq 0 (length p.2 - 1)))
            [] (enumerate sequences) = ok d) as Hrun'.
  { rewrite <- Hrun. apply for_each_ext. by intros d0 [i sentence]. }
  rewrite (for_each_measure (λ d, first_total d t) _ _ _ Hstep _ _ Hrun').
  unfold enumerate. simpl. by apply sum_list_with_enumerate_by.
Qed.

(** ** The first maximum *)

Lemma max_loop_first {A} (key : A → result nat) l best bv r :
  max_loop key best bv l = ok r →
  (r = best ∧ ∀ x v, x ∈ l → key x = ok v → v ≤ bv)
  ∨ ∃ i rv, l !! i = Some r ∧ key r = ok rv ∧ bv < rv
      ∧ (∀ j x v, j < i → l !! j = Some x → key x = ok v → v < rv)
      ∧ (∀ x v, x ∈ l → key x = ok v → v ≤ rv).
Proof.
  revert best bv. induction l as [|x l IH]; intros best bv Hrun; simpl in Hrun.
  - injection Hrun as <-. left. split; [done|]. by intros ?? ?%elem_of_nil.
  - apply bind_ok_inv in Hrun as (v & Hv & Hrun).
    destruct (Nat.ltb_spec bv v) as [Hlt|Hge].
    + right. destruct (IH _ _ Hrun) as [[-> Hall]|(i & rv & Hi & Hrv & Hlt' & Hbefore & Hall)].
      * exists 0, v. split_and!; [done..|intros j ?? Hj; lia|].
        intros y vy [->|Hy]%elem_of_cons Hvy; [|by eapply Hall].
        rewrite Hv in Hvy. injection Hvy as <-. lia.
      * exists (S i), rv. split_and!; [done..|lia| |].
        -- intros [|j] y vy Hj Hy Hvy.
           ++ injection Hy as <-. rewrite Hv in Hvy. injection Hvy as <-. lia.
           ++ eapply Hbefore; [|done..]. lia.
        -- intros y vy [->|Hy]%elem_of_cons Hvy; [|by eapply Hall].
           rewrite Hv in Hvy. injection Hvy as <-. lia.
    + destruct (IH _ _ Hrun) as [[-> Hall]|(i & rv & Hi & Hrv & Hlt' & Hbefore & Hall)].
      * left. split; [done|].
        intros y vy [->|Hy]%elem_of_cons Hvy; [|by eapply Hall].
        rewrite Hv in Hvy. injection Hvy as <-. lia.
      * right. exists (S i), rv. split_and!; [done..| |].
        -- intros [|j] y vy Hj Hy Hvy.
           ++ injection Hy as <-. rewrite Hv in Hvy. injection Hvy as <-. lia.
           ++ eapply Hbefore; [|done..]. lia.
        -- intros y vy [->|Hy]%elem_of_cons Hvy; [|by eapply Hall].
           rewrite Hv in Hvy. injection Hvy as <-. lia.
Qed.

Lemma py_max_first {A} (key : A → result nat) l r :
  py_max key l = ok r →
  ∃ i rv, l !! i = Some r ∧ key r = ok rv
    ∧ (∀ j x v, j < i → l !! j = Some x → key x = ok v → v < rv)
    ∧ (∀ x v, x ∈ l → key x = ok v → v ≤ rv).
Proof.
  destruct l as [|x l]; [done|]. simpl. intros Hrun.
  apply bind_ok_inv in Hrun as (v & Hv & Hrun).
  destruct (max_loop_first _ _ _ _ _ Hrun)
    as [[-> Hall]|(i & rv & Hi & Hrv & Hlt & Hbefore & Hall)].
  - exists 0, v. split_and!; [done..|intros j ?? Hj; lia|].
    intros y vy [->|Hy]%elem_of_cons Hvy; [|by eapply Hall].
    rewrite Hv in Hvy. injection Hvy as <-. lia.
  - exists (S i), rv. split_and!; [done..| |].
    + intros [|j] y vy Hj Hy Hvy.
      * injection Hy as <-. rewrite Hv in Hvy. injection Hvy as <-. lia.
      * eapply Hbefore; [|done..]. lia.
    + intros y vy [->|Hy]%elem_of_cons Hvy; [|by eapply Hall].
      rewrite Hv in Hvy. injection Hvy as <-. lia.
Qed.

Lemma mfc_body_ok word_counts tbl word tbl' :
  mfc_body word_counts tbl word = ok tbl' →
  ∃ row tag, dget word word_counts = Some row
    ∧ py_max (λ k, do row <- dlookup word_counts word; dlookup row k) (dkeys row)
      = ok tag
    ∧ tbl' = dset word tag tbl.
Proof.
  intros Hrun.
  apply bind_ok_inv in Hrun as (row & Hrow%dlookup_ok & Hrun).
  apply bind_ok_inv in Hrun as (tag & Htag & Hrun). injection Hrun as <-.
  by exists row, tag.
Qed.

(** If some pass raises [e] whatever the state, and the other passes can only
    raise [e] too, the loop raises [e]. *)
Lemma for_each_raises {A S} (e : exn) (body : S → A → result S) l :
  (∀ s x, x ∈ l → body s x = raise e ∨ ∃ s', body s x = ok s') →
  (∃ x, x ∈ l ∧ ∀ s, body s x = raise e) →
  ∀ s, for_each body s l = raise e.
Proof.
  induction l as [|x l IH]; intros Hcases (bad & Hbad & Hraise) s.
  - by apply elem_of_nil in Hbad.
  - simpl. apply elem_of_cons in Hbad as [->|Hbad]; [by rewrite Hraise|].
    destruct (Hcases s x) as [->|[s' ->]]; [left|done|]. simpl.
    apply IH; [|by exists bad]. intros; apply Hcases; by right.
Qed.

(** ** The tagger's table under decoding *)

Lemma table_getitem_answer self x :
  (MFCTagger.table_getitem self x).2 = table_answer self x
  ∧ ∀ w, table_answer (MFCTagger.table_getitem self x).1 w = table_answer self w.
Proof.
  unfold MFCTagger.table_getitem, table_answer.
  destruct (dget x (MFCTagger.table self)) as [fs|] eqn:Hx; simpl; [done|].
  split; [done|]. intros w. rewrite dget_dset. case_decide; [|done].
  subst. by rewrite Hx.
Qed.

Lemma lookup_all_answers self seq :
  (MFCTagger.lookup_all self seq).2 = table_answer self <$> seq
  ∧ ∀ w, table_answer (MFCTagger.lookup_all self seq).1 w = table_answer self w.
Proof.
  revert self. induction seq as [|x seq IH]; intros self; [done|].
  cbn [MFCTagger.lookup_all].
  destruct (table_getitem_answer self x) as [Hfs Hans].
  destruct (MFCTagger.table_getitem self x) as [self1 fs]. simpl in Hfs, Hans.
  destruct (IH self1) as [Hrest Hans1].
  destruct (MFCTagger.lookup_all self1 seq) as [self2 rest]. simpl in *.
  split.
  - rewrite Hfs, Hrest. f_equal. apply list_fmap_ext. intros ???. apply Hans.
  - intros w. by rewrite Hans1.
Qed.

Lemma lookup_all_table self seq w :
  dget w (MFCTagger.table (MFCTagger.lookup_all self seq).1)
  = match dget w (MFCTagger.table self) with
    | Some fs => Some fs
    | None => if decide (w ∈ seq) then Some MFCTagger.missing else None
    end.
Proof.
  revert self. induction seq as [|x seq IH]; intros self.
  - cbn [MFCTagger.lookup_all fst]. destruct (dget w _); [done|].
    case_decide as Hin; [by apply elem_of_nil in Hin|done].
  - cbn [MFCTagger.lookup_all]. unfold MFCTagger.table_getitem.
    specialize (IH self) as IH0.
    destruct (dget x (MFCTagger.table self)) as [fs|] eqn:Hx.
    + destruct (MFCTagger.lookup_all self seq) as [self2 rest]. simpl in *.
      rewrite IH0. destruct (dget w (MFCTagger.table self)) eqn:Hw; [done|].
      apply decide_ext. rewrite elem_of_cons. split; [by right|].
      intros [->|?]; [congruence|done].
    + specialize (IH (MFCTagger.mk (dset x MFCTagger.missing (MFCTagger.table self)))).
      destruct (MFCTagger.lookup_all _ seq) as [self2 rest]. simpl in *.
      rewrite IH, dget_dset. destruct (decide (w = x)) as [->|Hne].
      * rewrite Hx. by rewrite decide_True by left.
      * destruct (dget w (MFCTagger.table self)); [done|].
        apply decide_ext. rewrite elem_of_cons. split; [by right|].
        by intros [->|?].
Qed.

Lemma length_enumerate_from {A} n (l : list A) :
  length (enumerate_from n l) = length l.
Proof. revert n. induction l as [|x l IH]; intros n; simpl; [done|]. by rewrite IH. Qed.

Lemma enumerate_from_app {A} n (l1 l2 : list A) :
  enumerate_from n (l1 ++ l2)
  = enumerate_from n l1 ++ enumerate_from (n + length l1) l2.
Proof.
  revert n. induction l1 as [|x l1 IH]; intros n; simpl.
  - by rewrite Nat.add_0_r.
  - rewrite IH. do 3 f_equal. lia.
Qed.

Lemma slice_inner_enumerate {A} (a b : A) (l : list A) :
  slice_inner (enumerate ([a] ++ l ++ [b])) = enumerate_from 1 l.
Proof.
  unfold slice_inner, enumerate. simpl.
  rewrite length_enumerate_from, length_app, enumerate_from_app. simpl.
  replace (length l + 1 - 1) with (length (enumerate_from 1 l))
    by (rewrite length_enumerate_from; lia).
  by rewrite drop_0, take_app_length.
Qed.

Lemma map_result_names n (fs : list FakeState) :
  map_result (λ state : nat * pyobj, getattr_name state.2)
    (enumerate_from n (ObjFakeState <$> fs))
  = ok (fake_name <$> fs).
Proof.
  revert n. induction fs as [|f fs IH]; intros n; [done|].
  rewrite fmap_cons. cbn [enumerate_from map_result]. simpl. by rewrite IH.
Qed.

(** ** Bounds of the evaluator *)

Lemma count_equal_le ps ts : count_equal ps ts ≤ length ts.
Proof.
  unfold count_equal. revert ts.
  induction ps as [|p ps IH]; intros [|t ts]; try (cbn; lia).
  cbn [zip zip_with]. rewrite fmap_cons. cbn [sum_list_with length].
  specialize (IH ts). unfold id in *. case_decide; lia.
Qed.

Lemma sentence_correct_le r ts : sentence_correct r ts ≤ length ts.
Proof. destruct r; simpl; [lia|apply count_equal_le]. Qed.

Lemma truediv_bounds c t q :
  c ≤ t → truediv c t = ok q → (0 <= q)%Q ∧ (q <= 1)%Q.
Proof.
  destruct t as [|t]; [done|]. intros Hle [= <-].
  unfold Qle. cbn [Qnum Qden inject_Z].
  assert (Z.pos (Pos.of_nat (S t)) = Z.of_nat (S t)) as ->
    by (by rewrite <- positive_nat_Z, Nat2Pos.id).
  lia.
Qed.

(** ** The shape of a built model *)

Lemma prob_dist_keys total row acc dist :
  NoDup (dkeys acc ++ dkeys row) →
  for_each (prob_dist_body total) acc row = ok dist →
  dkeys dist = dkeys acc ++ dkeys row.
Proof.
  revert acc. induction row as [|[k v] row IH]; intros acc Hnd Hrun.
  - injection Hrun as <-. unfold dkeys. simpl. by rewrite app_nil_r.
  - cbn [for_each] in Hrun. apply bind_ok_inv in Hrun as (acc1 & Hstep & Hrun).
    apply bind_ok_inv in Hstep as (p & _ & Hstep). injection Hstep as <-.
    change (dkeys ((k, v) :: row)) with (k :: dkeys row) in *.
    assert (dkeys (dset k p acc) = dkeys acc ++ [k]) as Hk.
    { rewrite dkeys_dset. destruct (dget k acc) eqn:Hg; [|done].
      apply NoDup_app in Hnd as (_ & Hdisj & _). destruct (Hdisj k).
      - apply dget_is_Some. eauto.
      - left. }
    rewrite (IH (dset k p acc)); [by rewrite Hk, <- app_assoc|by rewrite Hk, <- app_assoc|done].
Qed.

Section build_shape.
Variables (emission_counts : table2)
          (tag_unigrams : dict string nat)
          (tag_bigrams : dict (string * string) nat)
          (tag_starts tag_ends : dict string nat)
          (len_data_y : nat).

Local Abbreviation state_loop_body :=
  (state_loop_body emission_counts tag_unigrams).
Local Abbreviation transition_loop_body :=
  (transition_loop_body tag_unigrams tag_bigrams tag_starts tag_ends len_data_y).
Local Abbreviation state_built := (state_built emission_counts tag_unigrams).
Local Abbreviation transitions_added :=
  (transitions_added tag_unigrams tag_bigrams tag_starts tag_ends len_data_y).

Lemma state_loop_states keys st st' :
  for_each state_loop_body st keys = ok st' →
  ∃ new, hmm_states st'.2 = hmm_states st.2 ++ new
         ∧ Forall2 state_built keys new.
Proof.
  revert st. induction keys as [|tag keys IH]; intros st Hrun; simpl in Hrun.
  - injection Hrun as <-. exists []. by rewrite app_nil_r.
  - apply bind_ok_inv in Hrun as (st1 & (s & Hs & ->)%state_loop_body_ok & Hrun).
    destruct (IH _ Hrun) as (new & Hnew & Hbuilt). simpl in Hnew.
    exists (s :: new). split; [by rewrite Hnew, <- app_assoc|by constructor].
Qed.

Lemma build_basic_model_shape m :
  build_basic_model emission_counts tag_unigrams tag_bigrams tag_starts tag_ends
    len_data_y = ok m →
  Forall2 state_built (dkeys emission_counts) (hmm_states m)
  ∧ length (hmm_edges m) = 3 * length (dkeys tag_bigrams)
  ∧ hmm_baked m = true.
Proof.
  unfold build_basic_model. intros Hrun.
  apply bind_ok_inv in Hrun as ([states m0] & Hloop1 & Hrun).
  apply bind_ok_inv in Hrun as (m1 & Hloop2 & Hrun). injection Hrun as <-.
  destruct (state_loop_states _ _ _ Hloop1) as (new & Hnew & Hbuilt).
  destruct (state_loop_spec _ _ _ _ Hloop1) as (Hedges & _ & _). simpl in *.
  destruct (transition_loop_spec _ _ _ _ _ _ _ _ _ Hloop2) as (ess & Hess & He & Hs).
  split_and!; [by rewrite Hs, Hnew| |done].
  rewrite He, Hedges. simpl. clear -Hess.
  induction Hess as [|bigram es keys ess Hes _ IH]; [done|].
  destruct Hes as (? & ? & ? & ? & ? & ? & ? & ? & ?
                   & _ & _ & _ & _ & _ & _ & _ & _ & _ & ->).
  simpl in *. lia.
Qed.

Lemma transition_loop_total states keys m :
  (∀ bigram, bigram ∈ keys →
     ∃ s0 s1 c total, dget bigram.1 states = Some s0 ∧ dget bigram.2 states = Some s1
       ∧ dget bigram tag_bigrams = Some c
       ∧ dget bigram.1 tag_unigrams = Some total ∧ 0 < total) →
  (keys ≠ [] → 0 < len_data_y) →
  (∀ bigram, bigram ∈ keys →
     is_Some (dget bigram.1 tag_starts) ∧ is_Some (dget bigram.1 tag_ends)) →
  ∃ m', for_each (transition_loop_body states) m keys = ok m'.
Proof.
  intros Hcons Hlen Hboth.
  destruct (for_each_total (λ _, True) (transition_loop_body states) keys)
    with (s := m) as (m' & Hm' & _); [|done|by exists m'].
  intros m0 bigram Hin _.
  destruct (Hcons _ Hin) as (s0 & s1 & c & total & Hs0 & Hs1 & Hc & Htotal & Hpos).
  destruct (Hboth _ Hin) as [[cs Hcs] [ce Hce]].
  assert (0 < len_data_y) as Hlen'.
  { apply Hlen. intros ->. by apply elem_of_nil in Hin. }
  pose proof (transition_loop_body_cases tag_unigrams tag_bigrams tag_starts
                tag_ends len_data_y states m0 bigram s0 s1 c total
                Hs0 Hs1 Hc Htotal Hpos Hlen') as Hcase.
  rewrite Hcs, Hce in Hcase. destruct Hcase as [m1 ->]. eauto.
Qed.

(** A failing second loop failed on a bigram whose first tag has no start
    count or no end count, with [KeyError]. *)
Lemma transition_loop_raise states keys m e :
  (∀ bigram, bigram ∈ keys →
     ∃ s0 s1 c total, dget bigram.1 states = Some s0 ∧ dget bigram.2 states = Some s1
       ∧ dget bigram tag_bigrams = Some c
       ∧ dget bigram.1 tag_unigrams = Some total ∧ 0 < total) →
  (keys ≠ [] → 0 < len_data_y) →
  for_each (transition_loop_body states) m keys = raise e →
  e = KeyError
  ∧ ∃ bigram, bigram ∈ keys
      ∧ (dget bigram.1 tag_starts = None ∨ dget bigram.1 tag_ends = None).
Proof.
  intros Hcons Hlen. revert m.
  induction keys as [|bigram keys IH]; intros m Hrun; [done|].
  simpl in Hrun.
  destruct (Hcons bigram) as (s0 & s1 & c & total & Hs0 & Hs1 & Hc & Htotal & Hpos);
    [left|].
  pose proof (transition_loop_body_cases tag_unigrams tag_bigrams tag_starts
                tag_ends len_data_y states m bigram s0 s1 c total
                Hs0 Hs1 Hc Htotal Hpos (Hlen ltac:(done))) as Hcase.
  destruct (dget bigram.1 tag_starts) as [cs|] eqn:Hcs;
    [destruct (dget bigram.1 tag_ends) as [ce|] eqn:Hce|].
  - destruct Hcase as [m1 Hm1]. rewrite Hm1 in Hrun. simpl in Hrun.
    destruct (IH (λ b Hb, Hcons b (list_elem_of_further _ _ _ Hb))) with (m := m1)
      as (-> & bad & Hbad & Hmiss); [|done|].
    + intros _. apply Hlen. done.
    + split; [done|]. exists bad. split; [by right|done].
  - rewrite Hcase in Hrun. injection Hrun as <-. split; [done|].
    exists bigram. split; [left|by right].
  - rewrite Hcase in Hrun. injection Hrun as <-. split; [done|].
    exists bigram. split; [left|by left].
Qed.
End build_shape.

(** ** The build on counted tables *)

Lemma trained_state_loop_total X Y emission_counts :
  pair_counts Y X = ok emission_counts →
  ∃ st, for_each (state_loop_body emission_counts (unigram_counts Y))
          ([], new_model "base-hmm-tagger") (dkeys emission_counts) = ok st.
Proof.
  intros Hem. apply state_loop_total. intros tag Htag.
  assert (tag ∈ concat Y) as Hin.
  { apply (pair_counts_keys _ _ _ _ Hem), dget_is_Some, Htag. }
  apply unigram_counts_keys in Hin as [total Htotal]. exists total.
  split; [done|]. by eapply unigram_counts_dpos.
Qed.

Lemma trained_tables_consistent X Y emission_counts tag_bigrams states m0 :
  pair_counts Y X = ok emission_counts →
  bigram_counts Y = ok tag_bigrams →
  for_each (state_loop_body emission_counts (unigram_counts Y))
    ([], new_model "base-hmm-tagger") (dkeys emission_counts) = ok (states, m0) →
  ∀ bigram, bigram ∈ dkeys tag_bigrams →
    ∃ s0 s1 c total,
      dget bigram.1 states = Some s0 ∧ dget bigram.2 states = Some s1
      ∧ dget bigram tag_bigrams = Some c
      ∧ dget bigram.1 (unigram_counts Y) = Some total ∧ 0 < total.
Proof.
  intros Hem Hbi Hloop1 [t u] Htu.
  destruct (state_loop_spec _ _ _ _ Hloop1) as (_ & _ & Hstates). simpl in Hstates.
  pose proof Htu as [c Hc]%dget_is_Some.
  assert (is_Some (dget (t, u) tag_bigrams)) as Hsome by eauto.
  apply (bigram_counts_is_Some _ _ _ _ Hbi) in Hsome as (s & j & Hs & Ht & Hu).
  assert (t ∈ concat Y ∧ u ∈ concat Y) as [Htin Huin].
  { split; apply elem_of_concat; exists s; split; try done;
      by eapply list_elem_of_lookup_2. }
  destruct (proj2 (Hstates t)) as [s0 Hs0].
  { apply dget_is_Some, (pair_counts_keys _ _ _ _ Hem), Htin. }
  destruct (proj2 (Hstates u)) as [s1 Hs1].
  { apply dget_is_Some, (pair_counts_keys _ _ _ _ Hem), Huin. }
  apply unigram_counts_keys in Htin as [total Htotal].
  exists s0, s1, c, total. split_and!; try done.
  by eapply unigram_counts_dpos.
Qed.

Lemma bigram_key_sentences Y tag_bigrams :
  bigram_counts Y = ok tag_bigrams → dkeys tag_bigrams ≠ [] → 0 < length Y.
Proof.
  intros Hbi Hne. destruct (dkeys tag_bigrams) as [|[t u] keys] eqn:Hkeys; [done|].
  assert (is_Some (dget (t, u) tag_bigrams)) as Hsome.
  { apply dget_is_Some. rewrite Hkeys. left. }
  apply (bigram_counts_is_Some _ _ _ _ Hbi) in Hsome as (s & _ & Hs & _).
  apply list_elem_of_lookup in Hs as [n Hn]. apply lookup_lt_Some in Hn. lia.
Qed.

Lemma simplify_decoding_mfc_run vocab X self :
  (simplify_decoding mfc_viterbi vocab X self).2
  = ok ((λ w, fake_name (table_answer self (if decide (w ∈ vocab) then w else "nan")))
        <$> X).
Proof.
  unfold simplify_decoding, mfc_viterbi, MFCTagger.viterbi.
  destruct (lookup_all_answers self (replace_unknown vocab X)) as [Htags _].
  destruct (MFCTagger.lookup_all self (replace_unknown vocab X)) as [self1 tags].
  simpl in *. rewrite Htags.
  pose proof (slice_inner_enumerate (ObjStr "<start>") (ObjStr "<end>")
                (ObjFakeState <$> (table_answer self <$> replace_unknown vocab X)))
    as Hslice.
  simpl in Hslice. rewrite Hslice, map_result_names.
  unfold replace_unknown. by rewrite <- !list_fmap_compose.
Qed.

Lemma simplify_decoding_mfc_state vocab X self w :
  table_answer (simplify_decoding mfc_viterbi vocab X self).1 w = table_answer self w.
Proof.
  unfold simplify_decoding, mfc_viterbi, MFCTagger.viterbi.
  destruct (lookup_all_answers self (replace_unknown vocab X)) as [_ Hans].
  destruct (MFCTagger.lookup_all self (replace_unknown vocab X)) as [self1 tags].
  simpl in *. apply Hans.
Qed.

(** * The claims *)

(** C1, as the build loop has it.  When the notebook builds the model from
    the training split, every probability it hands to the HMM is the quotient
    the formulas give:
    - the state of a tag carries, for each word counted under the tag,
      [emission[tag][word] / unigram[tag]];
    - each observed pair [(tag_i, tag_j)] gets the transition
      [bigram[(tag_i, tag_j)] / unigram[tag_i]] and, for its first tag, the
      end transition [end[tag_i] / num_sentences];
    - no transition between states, or from a state to the end, carries
      anything else, and an end transition leaves only the state of a tag
      that begins an observed pair. *)
Theorem hmm_probabilities (X Y : list (list string)) (m : HiddenMarkovModel) :
  train_basic_model X Y = ok m →
  ∃ emission_counts tag_bigrams tag_ends,
    pair_counts Y X = ok emission_counts
    ∧ bigram_counts Y = ok tag_bigrams
    ∧ ending_counts Y = ok tag_ends
    ∧ (∀ tag word row c,
         dget tag emission_counts = Some row → dget word row = Some c →
         ∃ s total p,
           s ∈ hmm_states m ∧ name s = tag
           ∧ dget tag (unigram_counts Y) = Some total
           ∧ truediv c total = ok p
           ∧ dget word (distribution s) = Some p)
    ∧ (∀ tag_i tag_j c,
         dget (tag_i, tag_j) tag_bigrams = Some c →
         ∃ s_i s_j total p c_end p_end,
           s_i ∈ hmm_states m ∧ name s_i = tag_i
           ∧ s_j ∈ hmm_states m ∧ name s_j = tag_j
           ∧ dget tag_i (unigram_counts Y) = Some total
           ∧ truediv c total = ok p
           ∧ (state_node s_i, state_node s_j, p) ∈ hmm_edges m
           ∧ dget tag_i tag_ends = Some c_end
           ∧ truediv c_end (length Y) = ok p_end
           ∧ (state_node s_i, model_end, p_end) ∈ hmm_edges m)
    ∧ (∀ s_i s_j p,
         (state_node s_i, state_node s_j, p) ∈ hmm_edges m →
         ∃ c total, dget (name s_i, name s_j) tag_bigrams = Some c
           ∧ dget (name s_i) (unigram_counts Y) = Some total
           ∧ truediv c total = ok p)
    ∧ (∀ s_i p,
         (state_node s_i, model_end, p) ∈ hmm_edges m →
         ∃ tag_j c_end, (name s_i, tag_j) ∈ dkeys tag_bigrams
           ∧ dget (name s_i) tag_ends = Some c_end
           ∧ truediv c_end (length Y) = ok p).
Proof.
  intros (emission_counts & tag_bigrams & tag_starts & tag_ends
          & Hem & Hbi & Hst & Hen & Hbuild)%train_basic_model_ok.
  exists emission_counts, tag_bigrams, tag_ends. split_and!; [done..| | | |].
  all: destruct (build_basic_model_ok _ _ _ _ _ _ _ Hbuild)
         as (states & ess & Hstates & Hkeys & Hess & Hedges).
  - intros tag word row c Hrow Hc.
    destruct (proj2 (Hkeys tag)) as [s Hs]; [apply dget_is_Some; eauto|].
    destruct (Hstates _ _ Hs) as [(Hname & total & row' & Htotal & Hrow' & Hdist) Hin].
    assert (row' = row) as -> by congruence.
    destruct (pair_counts_wf _ _ _ Hem) as [_ Hrows].
    destruct (Hrows _ _ Hrow) as [Hnd _].
    pose proof (prob_dist_loop total row [] _ Hnd Hdist word) as Hw.
    rewrite Hc in Hw. destruct Hw as (p & Hp & Hw). by exists s, total, p.
  - intros tag_i tag_j c Hc.
    assert ((tag_i, tag_j) ∈ dkeys tag_bigrams) as Hkey by (apply dget_is_Some; eauto).
    apply list_elem_of_lookup in Hkey as [n Hn].
    destruct (Forall2_lookup_l _ _ _ _ _ Hess Hn) as (es & Hes & Hadded).
    destruct Hadded as (s0 & s1 & c_start & c_pair & total & c_end & p_start
                        & p_pair & p_end & Hs0 & Hs1 & _ & _ & Hcp & Htotal & Hpp
                        & Hce & Hpe & ->).
    simpl in *. assert (c_pair = c) as -> by congruence.
    destruct (Hstates _ _ Hs0) as [[Hn0 _] Hin0].
    destruct (Hstates _ _ Hs1) as [[Hn1 _] Hin1].
    assert (∀ e, e ∈ [(model_start, state_node s0, p_start);
                      (state_node s0, state_node s1, p_pair);
                      (state_node s0, model_end, p_end)] → e ∈ hmm_edges m) as Hsub.
    { intros e He. rewrite Hedges. apply elem_of_concat. eexists. split; [|done].
      by eapply list_elem_of_lookup_2. }
    exists s0, s1, total, p_pair, c_end, p_end.
    split_and!; try done; apply Hsub; [right; left|right; right; left].
  - intros s_i s_j p Hin. rewrite Hedges in Hin.
    apply elem_of_concat in Hin as (es & [n Hn]%list_elem_of_lookup & Hin).
    destruct (Forall2_lookup_r _ _ _ _ _ Hess Hn) as (bigram & Hbg & Hadded).
    destruct Hadded as (s0 & s1 & c_start & c_pair & total & c_end & p_start
                        & p_pair & p_end & Hs0 & Hs1 & _ & _ & Hcp & Htotal & Hpp
                        & Hce & Hpe & ->).
    destruct (Hstates _ _ Hs0) as [[Hn0 _] _].
    destruct (Hstates _ _ Hs1) as [[Hn1 _] _].
    apply elem_of_cons in Hin as [[=]|Hin].
    apply elem_of_cons in Hin as [[= -> -> ->]|Hin].
    + exists c_pair, total. rewrite Hn0, Hn1. by destruct bigram.
    + apply list_elem_of_singleton in Hin. done.
  - intros s_i p Hin. rewrite Hedges in Hin.
    apply elem_of_concat in Hin as (es & [n Hn]%list_elem_of_lookup & Hin).
    destruct (Forall2_lookup_r _ _ _ _ _ Hess Hn) as (bigram & Hbg & Hadded).
    destruct Hadded as (s0 & s1 & c_start & c_pair & total & c_end & p_start
                        & p_pair & p_end & Hs0 & Hs1 & _ & _ & Hcp & Htotal & Hpp
                        & Hce & Hpe & ->).
    destruct (Hstates _ _ Hs0) as [[Hn0 _] _].
    apply elem_of_cons in Hin as [[=]|Hin].
    apply elem_of_cons in Hin as [[=]|Hin].
    apply list_elem_of_singleton in Hin. injection Hin as -> ->.
    exists bigram.2, c_end. rewrite Hn0. split_and!; [|done..].
    destruct bigram. by eapply list_elem_of_lookup_2.
Qed.

Lemma hmm_probabilities_witness :
  ∃ m, train_basic_model example_X example_Y = ok m
    ∧ ∃ emission_counts tag_bigrams tag_ends,
        pair_counts example_Y example_X = ok emission_counts
        ∧ bigram_counts example_Y = ok tag_bigrams
        ∧ ending_counts example_Y = ok tag_ends
        ∧ (∀ tag word row c,
             dget tag emission_counts = Some row → dget word row = Some c →
             ∃ s total p,
               s ∈ hmm_states m ∧ name s = tag
               ∧ dget tag (unigram_counts example_Y) = Some total
               ∧ truediv c total = ok p
               ∧ dget word (distribution s) = Some p)
        ∧ (∀ tag_i tag_j c,
             dget (tag_i, tag_j) tag_bigrams = Some c →
             ∃ s_i s_j total p c_end p_end,
               s_i ∈ hmm_states m ∧ name s_i = tag_i
               ∧ s_j ∈ hmm_states m ∧ name s_j = tag_j
               ∧ dget tag_i (unigram_counts example_Y) = Some total
               ∧ truediv c total = ok p
               ∧ (state_node s_i, state_node s_j, p) ∈ hmm_edges m
               ∧ dget tag_i tag_ends = Some c_end
               ∧ truediv c_end (length example_Y) = ok p_end
               ∧ (state_node s_i, model_end, p_end) ∈ hmm_edges m)
        ∧ (∀ s_i s_j p,
             (state_node s_i, state_node s_j, p) ∈ hmm_edges m →
             ∃ c total, dget (name s_i, name s_j) tag_bigrams = Some c
               ∧ dget (name s_i) (unigram_counts example_Y) = Some total
               ∧ truediv c total = ok p)
        ∧ (∀ s_i p,
             (state_node s_i, model_end, p) ∈ hmm_edges m →
             ∃ tag_j c_end, (name s_i, tag_j) ∈ dkeys tag_bigrams
               ∧ dget (name s_i) tag_ends = Some c_end
               ∧ truediv c_end (length example_Y) = ok p).
Proof.
  eexists. split; [vm_compute; reflexivity|].
  apply (hmm_probabilities example_X example_Y). vm_compute. reflexivity.
Defined.

(** C1 fails for a tag that begins no observed pair: the build below
    completes, the tag [C] is observed in training and ends one sentence of
    three, yet the model has a state for [C] and no transition from it to the
    end state (end transitions leave the states of [A] and [B] only). *)
Lemma end_transition_missing :
  let X := [["a"; "b"]; ["b"; "a"]; ["c"]] in
  let Y := [["A"; "B"]; ["B"; "A"]; ["C"]] in
  ∃ m, train_basic_model X Y = ok m
    ∧ "C" ∈ concat Y
    ∧ ending_counts Y = ok [("B", 1); ("A", 1); ("C", 1)]
    ∧ name <$> hmm_states m = ["A"; "B"; "C"]
    ∧ filter (λ e, e.1.2 = model_end) (hmm_edges m)
      = [(state_node (mkState [("a", Qmake 2 2)] "A"), model_end, Qmake 1 3);
         (state_node (mkState [("b", Qmake 2 2)] "B"), model_end, Qmake 1 3)].
Proof.
  eexists. split_and!; [vm_compute; reflexivity| |reflexivity..].
  simpl. set_solver.
Qed.

(** C2. For parallel collections [X], [Y] and any model, [accuracy] returns
    [correct / total] where [total] is the number of tokens of all sentences
    of [X], whether their decoding raised or not, and a sentence whose
    decoding raised adds nothing to [correct]; the only exception that can
    leave [accuracy] is the division's, never the decoder's. *)
Theorem accuracy_counts_failed_sentences {Model Score : Type}
    (viterbi : Model → list string → Model * result (Score * option path))
    (vocab : gset string) (X Y : list (list string)) (model : Model) :
  length X = length Y →
  (accuracy viterbi vocab X Y model).2
  = truediv (sum_list (zip_with sentence_correct
                         (decode_all viterbi vocab model X) Y))
            (length (concat X))
  ∧ (0 < length (concat X) → ∃ q, (accuracy viterbi vocab X Y model).2 = ok q)
  ∧ ∀ e, (accuracy viterbi vocab X Y model).2 = raise e → e = ZeroDivisionError.
Proof.
  intros Hlen. split_and!.
  - rewrite accuracy_pairs, fst_zip, snd_zip by lia. done.
  - rewrite accuracy_pairs, fst_zip by lia. unfold truediv.
    destruct (length (concat X)); [lia|eauto].
  - apply accuracy_raise.
Qed.

Lemma accuracy_counts_failed_sentences_witness :
  let X := [["Spot"; "ran"]; ["Spot"; "barked"]] in
  let Y := [["NOUN"; "VERB"]; ["NOUN"; "VERB"]] in
  let vocab := {["Spot"; "ran"]} in
  let model := MFCTagger.init [("Spot", "NOUN"); ("ran", "VERB")] in
  (accuracy blocked_viterbi vocab X Y model).2
  = truediv (sum_list (zip_with sentence_correct
                         (decode_all blocked_viterbi vocab model X) Y))
            (length (concat X))
  ∧ (0 < length (concat X) → ∃ q, (accuracy blocked_viterbi vocab X Y model).2 = ok q)
  ∧ ∀ e, (accuracy blocked_viterbi vocab X Y model).2 = raise e → e = ZeroDivisionError.
Proof.
  intros X Y vocab model.
  apply (accuracy_counts_failed_sentences blocked_viterbi vocab X Y model).
  reflexivity.
Defined.

Example accuracy_failed_sentence_value :
  (accuracy blocked_viterbi {["Spot"; "ran"]}
     [["Spot"; "ran"]; ["Spot"; "barked"]]
     [["NOUN"; "VERB"]; ["NOUN"; "VERB"]]
     (MFCTagger.init [("Spot", "NOUN"); ("ran", "VERB")])).2
  = ok (Qmake 2 4).
Proof. vm_compute. reflexivity. Qed.

(** C3. [replace_unknown] returns a sequence of the same length; a word
    outside the training vocabulary becomes ['nan'], a word of the vocabulary
    is kept. *)
Theorem replace_unknown_spec (vocab : gset string) (sequence : list string) :
  length (replace_unknown vocab sequence) = length sequence
  ∧ ∀ i w, sequence !! i = Some w →
      (w ∉ vocab → replace_unknown vocab sequence !! i = Some "nan")
      ∧ (w ∈ vocab → replace_unknown vocab sequence !! i = Some w).
Proof.
  unfold replace_unknown. split; [apply length_fmap|].
  intros i w Hw. rewrite list_lookup_fmap, Hw. simpl.
  by case_decide.
Qed.

(** C4. For parallel collections [seqA], [seqB] of equal outer length and
    pairwise equal sentence lengths, [pair_counts] returns, and the counts
    [result[a][b]], summed over every outer key [a] and every inner key [b],
    give the number of tokens of the input. *)
Theorem pair_counts_total (seqA seqB : list (list string)) :
  length seqA = length seqB →
  Forall2 (λ a b, length a = length b) seqA seqB →
  ∃ r, pair_counts seqA seqB = ok r ∧ table2_total r = length (concat seqA).
Proof.
  intros _ Hshape.
  destruct (proj1 (pair_counts_covered seqA seqB) (same_shape_covered _ _ Hshape))
    as [r Hr].
  exists r. split; [done|].
  rewrite table2_total_sum by (by eapply pair_counts_wf).
  by eapply pair_counts_sum.
Qed.

Lemma pair_counts_total_witness :
  ∃ r, pair_counts [["See"; "Spot"; "run"]; ["Spot"; "ran"]]
                   [["VERB"; "NOUN"; "VERB"]; ["NOUN"; "VERB"]] = ok r
       ∧ table2_total r = 5.
Proof.
  apply (pair_counts_total [["See"; "Spot"; "run"]; ["Spot"; "ran"]]
                           [["VERB"; "NOUN"; "VERB"]; ["NOUN"; "VERB"]]).
  - reflexivity.
  - repeat constructor.
Defined.

(** C5. [bigram_counts] returns, for every ordered pair [(a, b)], the number
    of positions [k] of a sentence with [seq[k] = a] and [seq[k+1] = b],
    added up sentence by sentence; a pair is a key only if some single
    sentence holds it at adjacent positions, so the last element of one
    sentence and the first of the next are never paired. *)
Theorem bigram_counts_within_sentences (sequences : list (list string)) :
  ∃ d, bigram_counts sequences = ok d
    ∧ ∀ a b,
        dget (a, b) d
        = (let n := sum_list_with (adjacent_in a b) sequences in
           if decide (n = 0) then None else Some n)
        ∧ (is_Some (dget (a, b) d)
           ↔ ∃ sentence k, sentence ∈ sequences
               ∧ sentence !! k = Some a ∧ sentence !! S k = Some b).
Proof.
  destruct (bigram_counts_total sequences) as [d Hd]. exists d. split; [done|].
  intros a b. split; [|by apply bigram_counts_is_Some].
  destruct (bigram_counts_shape _ _ Hd) as [_ Hpos].
  by rewrite (dpos_dget d (a, b) Hpos), (bigram_counts_dcount _ _ a b Hd).
Qed.

Example bigram_counts_boundary :
  bigram_counts [["DET"; "NOUN"]; ["VERB"; "NOUN"]]
  = ok [(("DET", "NOUN"), 1); (("VERB", "NOUN"), 1)].
Proof. reflexivity. Qed.

(** C6. With the vocabulary of the training words, the baseline is built
    without error, and its decoding gives every position of a sequence a
    state by the word alone: for a word seen in training, a tag whose count
    in [pair_counts(words, tags)[word]] is maximal; for any other word, the
    state [<MISSING>].  This holds however many sequences the tagger has
    decoded before. *)
Theorem mfc_assigns_most_frequent_tag
    (vocab : gset string) (X Y : list (list string)) :
  (∀ w, w ∈ vocab ↔ w ∈ concat X) →
  length X = length Y →
  Forall2 (λ a b, length a = length b) X Y →
  ∃ word_counts mfc_model,
    pair_counts X Y = ok word_counts
    ∧ train_mfc_model vocab X Y = ok mfc_model
    ∧ ∀ (earlier : list (list string)) (seq : list string) (i : nat) (w : string),
        seq !! i = Some w →
        let decoded := (MFCTagger.viterbi (mfc_after mfc_model earlier) seq).2.2 in
        (w ∈ concat X →
           ∃ tag, decoded !! S i = Some (S i, ObjFakeState (mkFakeState tag))
                  ∧ most_frequent word_counts w tag)
        ∧ (w ∉ concat X →
           decoded !! S i = Some (S i, ObjFakeState MFCTagger.missing)).
Proof.
  intros Hvocab _ Hshape.
  destruct (proj1 (pair_counts_covered X Y) (same_shape_covered _ _ Hshape))
    as [word_counts Hwc].
  destruct (build_mfc_table_spec vocab word_counts)
    as (tbl & Htbl & Hnd & Hkeys & Hgood).
  { intros w Hw%Hvocab. apply (pair_counts_keys _ _ _ _ Hwc) in Hw as [row Hrow].
    exists row. split; [done|]. by eapply pair_counts_wf. }
  exists word_counts, (MFCTagger.init tbl). split_and!; [done| |].
  { unfold train_mfc_model. rewrite Hwc. simpl. by rewrite Htbl. }
  intros earlier seq i w Hw decoded. subst decoded.
  pose proof (mfc_after_agrees tbl _ earlier (mfc_init_agrees tbl Hnd)) as Hag.
  destruct (mfc_viterbi_spec tbl _ seq Hag) as [-> _].
  rewrite (mfc_path_lookup tbl seq i w Hw). unfold mfc_answer. split.
  - intros [tag Htag]%Hvocab%Hkeys. exists tag. rewrite Htag. split; [done|].
    by apply Hgood.
  - intros Hno. destruct (dget w tbl) as [tag|] eqn:Htag; [|done].
    destruct Hno. apply Hvocab, Hkeys. eauto.
Qed.

Lemma mfc_assigns_most_frequent_tag_witness :
  let X := [["See"; "Spot"; "run"]; ["Spot"; "ran"]] in
  let Y := [["VERB"; "NOUN"; "VERB"]; ["NOUN"; "VERB"]] in
  ∃ word_counts mfc_model,
    pair_counts X Y = ok word_counts
    ∧ train_mfc_model (vocab_of X) X Y = ok mfc_model
    ∧ ∀ (earlier : list (list string)) (seq : list string) (i : nat) (w : string),
        seq !! i = Some w →
        let decoded := (MFCTagger.viterbi (mfc_after mfc_model earlier) seq).2.2 in
        (w ∈ concat X →
           ∃ tag, decoded !! S i = Some (S i, ObjFakeState (mkFakeState tag))
                  ∧ most_frequent word_counts w tag)
        ∧ (w ∉ concat X →
           decoded !! S i = Some (S i, ObjFakeState MFCTagger.missing)).
Proof.
  intros X Y. apply (mfc_assigns_most_frequent_tag (vocab_of X) X Y).
  - intros w. unfold vocab_of. apply elem_of_list_to_set.
  - reflexivity.
  - repeat constructor.
Defined.

Example mfc_decoding_value :
  let X := [["See"; "Spot"; "run"]; ["Spot"; "ran"]] in
  let Y := [["VERB"; "NOUN"; "VERB"]; ["NOUN"; "VERB"]] in
  (do m <- train_mfc_model (vocab_of X) X Y;
   ok (MFCTagger.viterbi m ["Spot"; "barked"]).2.2)
  = ok [(0, ObjStr "<start>"); (1, ObjFakeState (mkFakeState "NOUN"));
        (2, ObjFakeState MFCTagger.missing); (3, ObjStr "<end>")].
Proof. vm_compute. reflexivity. Qed.

(** C7, as the sources have it: there is no shape check and no
    [MalformedSequenceError].  [pair_counts] reads [sequences_B] at the
    positions of [sequences_A]: it raises [IndexError] exactly when a
    position of [sequences_A] has no counterpart in [sequences_B], and
    otherwise returns its counts, whatever else [sequences_B] holds.
    [accuracy] walks [zip(X, Y)]: sentences beyond the shorter collection are
    dropped, and no shape mismatch makes it raise. *)
Theorem shape_mismatch_behaviour {Model Score : Type}
    (viterbi : Model → list string → Model * result (Score * option path))
    (vocab : gset string) (model : Model) (A B : list (list string)) :
  (covered A B ↔ ∃ r, pair_counts A B = ok r)
  ∧ (¬ covered A B ↔ pair_counts A B = raise IndexError)
  ∧ (accuracy viterbi vocab A B model).2
    = (accuracy viterbi vocab (take (length A `min` length B) A)
         (take (length A `min` length B) B) model).2
  ∧ ∀ e, (accuracy viterbi vocab A B model).2 = raise e → e = ZeroDivisionError.
Proof.
  split_and!.
  - apply pair_counts_covered.
  - rewrite pair_counts_covered. split.
    + intros Hno. destruct (pair_counts A B) as [e|r] eqn:Hrun.
      * by rewrite (pair_counts_raise _ _ _ Hrun).
      * destruct Hno. by exists r.
    + intros -> [r [=]].
  - by rewrite !accuracy_pairs, zip_take_min.
  - apply accuracy_raise.
Qed.

(** C7 fails as stated: collections of different counts and sentence lengths
    are processed without any error. *)
Lemma mismatch_processed_silently :
  let words := [["the"; "dog"]; ["barks"]] in
  let tags := [["DET"; "NOUN"; "VERB"]; ["VERB"]; ["X"]] in
  length words ≠ length tags
  ∧ ¬ Forall2 (λ a b : list string, length a = length b) words tags
  ∧ pair_counts words tags
    = ok [("the", [("DET", 1)]); ("dog", [("NOUN", 1)]); ("barks", [("VERB", 1)])]
  ∧ (accuracy mfc_viterbi ∅ words tags (MFCTagger.init [])).2 = ok (Qmake 0 3).
Proof.
  split_and!; [simpl; lia| |reflexivity|vm_compute; reflexivity].
  intros H%Forall2_length. simpl in H. lia.
Qed.

(** C8. In a successful build, a tag [t] that begins [k > 0] distinct
    observed bigrams gets the transition from the start state to its state
    [k] times and the transition from its state to the end state [k] times,
    each time with one and the same probability, while every observed bigram
    [(t, u)] gets its tag-to-tag transition exactly once. *)
Theorem boundary_transitions_repeated
    (X Y : list (list string)) (m : HiddenMarkovModel) :
  train_basic_model X Y = ok m →
  ∃ tag_bigrams,
    bigram_counts Y = ok tag_bigrams
    ∧ NoDup (dkeys tag_bigrams)
    ∧ ∀ t,
        let k := length (filter (λ bigram, bigram.1 = t) (dkeys tag_bigrams)) in
        0 < k →
        ∃ st p_start p_end,
          st ∈ hmm_states m ∧ name st = t
          ∧ transitions_between m model_start (state_node st)
            = replicate k (model_start, state_node st, p_start)
          ∧ transitions_between m (state_node st) model_end
            = replicate k (state_node st, model_end, p_end)
          ∧ ∀ u, (t, u) ∈ dkeys tag_bigrams →
              ∃ su, su ∈ hmm_states m ∧ name su = u
                ∧ length (transitions_between m (state_node st) (state_node su)) = 1.
Proof.
  intros (emission_counts & tag_bigrams & tag_starts & tag_ends
          & Hem & Hbi & Hst & Hen & Hbuild)%train_basic_model_ok.
  exists tag_bigrams. destruct (bigram_counts_shape _ _ Hbi) as [Hnd _].
  split_and!; [done..|]. intros t k Hk.
  destruct (build_basic_model_ok _ _ _ _ _ _ _ Hbuild)
    as (states & ess & Hstates & Hkeys & Hess & Hedges).
  assert (∀ tag s, dget tag states = Some s → name s = tag) as Hnames.
  { intros tag s Hs. by destruct (Hstates _ _ Hs) as [[? _] _]. }
  (* some bigram begins with [t] *)
  assert (∃ bigram, bigram ∈ dkeys tag_bigrams ∧ bigram.1 = t) as (bg & Hbg & Hbg1).
  { assert (∃ bg, bg ∈ filter (λ bigram : string * string, bigram.1 = t)
                           (dkeys tag_bigrams)) as [bg Hbg].
    { subst k. revert Hk. destruct (filter _ _) as [|bg l]; simpl; [lia|].
      intros _. exists bg. left. }
    apply list_elem_of_filter in Hbg as [? ?]. by exists bg. }
  apply list_elem_of_lookup in Hbg as [n Hn].
  destruct (Forall2_lookup_l _ _ _ _ _ Hess Hn) as (es & _ & Hadded).
  destruct Hadded as (st & s1 & c_start & c_pair & total & c_end & p_start
                      & p_pair & p_end & Hs0 & Hs1 & Hcs & Hps & _ & _ & _
                      & Hce & Hpe & _).
  rewrite Hbg1 in *. destruct (Hstates _ _ Hs0) as [[Hname _] Hin].
  exists st, p_start, p_end. unfold transitions_between. rewrite Hedges.
  split_and!; [done..| | |].
  - by eapply start_transitions_count.
  - by eapply end_transitions_count.
  - intros u Hu.
    assert ((t, u) ∈ dkeys tag_bigrams) as Hu' by done.
    apply list_elem_of_lookup in Hu as [n' Hn'].
    destruct (Forall2_lookup_l _ _ _ _ _ Hess Hn') as (es' & _ & Hadded').
    destruct Hadded' as (st' & su & ? & ? & ? & ? & ? & ? & ? & Hst' & Hsu & _).
    simpl in *. destruct (Hstates _ _ Hsu) as [[Hnu _] Hinu].
    exists su. split_and!; [done..|].
    rewrite (pair_transitions_count _ _ _ _ _ _ _ _ t u st su Hnames Hess Hs0 Hsu).
    by apply filter_eq_NoDup.
Qed.

Lemma boundary_transitions_repeated_witness :
  ∃ m, train_basic_model example_X example_Y = ok m
    ∧ ∃ tag_bigrams,
        bigram_counts example_Y = ok tag_bigrams
        ∧ NoDup (dkeys tag_bigrams)
        ∧ ∀ t,
            let k := length (filter (λ bigram, bigram.1 = t) (dkeys tag_bigrams)) in
            0 < k →
            ∃ st p_start p_end,
              st ∈ hmm_states m ∧ name st = t
              ∧ transitions_between m model_start (state_node st)
                = replicate k (model_start, state_node st, p_start)
              ∧ transitions_between m (state_node st) model_end
                = replicate k (state_node st, model_end, p_end)
              ∧ ∀ u, (t, u) ∈ dkeys tag_bigrams →
                  ∃ su, su ∈ hmm_states m ∧ name su = u
                    ∧ length (transitions_between m (state_node st) (state_node su)) = 1.
Proof.
  eexists. split; [vm_compute; reflexivity|].
  apply (boundary_transitions_repeated example_X example_Y). vm_compute. reflexivity.
Defined.

Example boundary_transitions_twice :
  (do m <- train_basic_model example_X example_Y;
   ok (length <$> ((λ s, transitions_between m model_start (state_node s))
                   <$> hmm_states m)))
  = ok [2; 1].
Proof. vm_compute. reflexivity. Qed.

(** C9. The build can fail on tables that are consistent (every tag of a
    bigram has a unigram count and an emission row): on a well-shaped
    training split without empty sentences, as soon as some tag [b0] that
    begins a bigram begins no sentence, or ends no sentence, the count tables
    are all computed, they are consistent, and the build raises [KeyError]. *)
Theorem build_raises_key_error
    (X Y : list (list string)) (sentence : list string) (k : nat)
    (b0 b1 : string) :
  Forall2 (λ tags words, length tags = length words) Y X →
  Forall (λ tags, tags ≠ []) Y →
  sentence ∈ Y → sentence !! k = Some b0 → sentence !! S k = Some b1 →
  (∀ tags, tags ∈ Y → head tags ≠ Some b0)
  ∨ (∀ tags, tags ∈ Y → last tags ≠ Some b0) →
  ∃ emission_counts tag_bigrams tag_starts tag_ends,
    pair_counts Y X = ok emission_counts
    ∧ bigram_counts Y = ok tag_bigrams
    ∧ starting_counts Y = ok tag_starts
    ∧ ending_counts Y = ok tag_ends
    ∧ (∀ t u, (t, u) ∈ dkeys tag_bigrams →
         t ∈ dkeys (unigram_counts Y) ∧ t ∈ dkeys emission_counts
         ∧ u ∈ dkeys (unigram_counts Y) ∧ u ∈ dkeys emission_counts)
    ∧ (b0, b1) ∈ dkeys tag_bigrams
    ∧ (dget b0 tag_starts = None ∨ dget b0 tag_ends = None)
    ∧ train_basic_model X Y = raise KeyError.
Proof.
  intros Hshape Hne Hsent Hb0 Hb1 Hmiss.
  destruct (proj1 (pair_counts_covered Y X) (same_shape_covered _ _ Hshape))
    as [emission_counts Hem].
  destruct (bigram_counts_total Y) as [tag_bigrams Hbi].
  destruct (starting_counts_total Y Hne) as [tag_starts Hst].
  destruct (ending_counts_total Y Hne) as [tag_ends Hen].
  exists emission_counts, tag_bigrams, tag_starts, tag_ends.
  assert (∀ t u, (t, u) ∈ dkeys tag_bigrams → t ∈ concat Y ∧ u ∈ concat Y) as Htags.
  { intros t u Htu%dget_is_Some.
    apply (bigram_counts_is_Some _ _ _ _ Hbi) in Htu as (s & j & Hs & Ht & Hu).
    split; apply elem_of_concat; exists s; split; try done;
      by eapply list_elem_of_lookup_2. }
  assert (∀ t, t ∈ concat Y → t ∈ dkeys (unigram_counts Y) ∧ t ∈ dkeys emission_counts)
    as Hknown.
  { intros t Ht. split; apply dget_is_Some.
    - by apply unigram_counts_keys.
    - by apply (pair_counts_keys _ _ _ _ Hem). }
  assert ((b0, b1) ∈ dkeys tag_bigrams) as Hkey.
  { apply dget_is_Some, (bigram_counts_is_Some _ _ _ _ Hbi). eauto. }
  assert (dget b0 tag_starts = None ∨ dget b0 tag_ends = None) as Hnone.
  { destruct Hmiss as [Hhead|Hlast]; [left|right]; apply eq_None_not_Some.
    - intros (s & Hs & Hh)%(starting_counts_keys _ _ _ Hst). by apply (Hhead s).
    - intros (s & Hs & Hl)%(ending_counts_keys _ _ _ Hen). by apply (Hlast s). }
  split_and!; [done..| |done|done|].
  { intros t u [Ht Hu]%Htags. destruct (Hknown _ Ht), (Hknown _ Hu). done. }
  unfold train_basic_model. rewrite Hem, Hbi, Hst, Hen. simpl.
  unfold build_basic_model.
  destruct (state_loop_total emission_counts (unigram_counts Y)
              ([], new_model "base-hmm-tagger")) as [[states m0] Hloop1].
  { intros tag Htag. assert (tag ∈ concat Y) as Hin.
    { apply (pair_counts_keys _ _ _ _ Hem), dget_is_Some, Htag. }
    apply unigram_counts_keys in Hin as [total Htotal]. exists total.
    split; [done|]. by eapply unigram_counts_dpos. }
  rewrite Hloop1. simpl.
  destruct (state_loop_spec _ _ _ _ Hloop1) as (_ & _ & Hstates). simpl in Hstates.
  rewrite (transition_loop_key_error (unigram_counts Y) tag_bigrams tag_starts
             tag_ends (length Y) states (dkeys tag_bigrams) m0); [done| | |].
  - intros [t u] Htu. destruct (Htags _ _ Htu) as [Ht Hu].
    destruct (proj2 (Hstates t)) as [s0 Hs0]; [by apply Hknown|].
    destruct (proj2 (Hstates u)) as [s1 Hs1]; [by apply Hknown|].
    apply dget_is_Some in Htu as [c Hc].
    apply unigram_counts_keys in Ht as [total Htotal].
    exists s0, s1, c, total. split_and!; try done.
    by eapply unigram_counts_dpos.
  - apply list_elem_of_lookup in Hsent as [n Hn].
    apply lookup_lt_Some in Hn. lia.
  - by exists (b0, b1).
Qed.

Lemma build_raises_key_error_witness :
  ∃ emission_counts tag_bigrams tag_starts tag_ends,
    pair_counts [["VERB"; "NOUN"; "VERB"]; ["NOUN"; "VERB"]]
                [["See"; "Spot"; "run"]; ["Spot"; "ran"]] = ok emission_counts
    ∧ bigram_counts [["VERB"; "NOUN"; "VERB"]; ["NOUN"; "VERB"]] = ok tag_bigrams
    ∧ starting_counts [["VERB"; "NOUN"; "VERB"]; ["NOUN"; "VERB"]] = ok tag_starts
    ∧ ending_counts [["VERB"; "NOUN"; "VERB"]; ["NOUN"; "VERB"]] = ok tag_ends
    ∧ (∀ t u, (t, u) ∈ dkeys tag_bigrams →
         t ∈ dkeys (unigram_counts [["VERB"; "NOUN"; "VERB"]; ["NOUN"; "VERB"]])
         ∧ t ∈ dkeys emission_counts
         ∧ u ∈ dkeys (unigram_counts [["VERB"; "NOUN"; "VERB"]; ["NOUN"; "VERB"]])
         ∧ u ∈ dkeys emission_counts)
    ∧ ("NOUN", "VERB") ∈ dkeys tag_bigrams
    ∧ (dget "NOUN" tag_starts = None ∨ dget "NOUN" tag_ends = None)
    ∧ train_basic_model [["See"; "Spot"; "run"]; ["Spot"; "ran"]]
                        [["VERB"; "NOUN"; "VERB"]; ["NOUN"; "VERB"]]
      = raise KeyError.
Proof.
  apply (build_raises_key_error
           [["See"; "Spot"; "run"]; ["Spot"; "ran"]]
           [["VERB"; "NOUN"; "VERB"]; ["NOUN"; "VERB"]]
           ["VERB"; "NOUN"; "VERB"] 1 "NOUN" "VERB").
  - repeat constructor.
  - repeat constructor; discriminate.
  - left.
  - reflexivity.
  - reflexivity.
  - right. intros tags Htags.
    apply elem_of_cons in Htags as [->|Htags]; [discriminate|].
    apply list_elem_of_singleton in Htags as ->. discriminate.
Defined.

(** C10. When the word sequences hold no token at all (no sentence, or only
    empty sentences), [accuracy] raises [ZeroDivisionError]. *)
Theorem accuracy_zero_tokens {Model Score : Type}
    (viterbi : Model → list string → Model * result (Score * option path))
    (vocab : gset string) (X Y : list (list string)) (model : Model) :
  Forall (λ observations, observations = []) X →
  (accuracy viterbi vocab X Y model).2 = raise ZeroDivisionError.
Proof.
  intros Hempty. rewrite accuracy_pairs.
  assert (concat (zip X Y).*1 = []) as ->; [|done].
  revert Y. induction Hempty as [|obs X -> _ IH]; intros [|tags Y]; simpl; [done..|].
  apply IH.
Qed.

Lemma accuracy_zero_tokens_witness :
  (accuracy blocked_viterbi ∅ [[]; []] [[]; []] (MFCTagger.init [])).2
  = raise ZeroDivisionError.
Proof.
  apply (accuracy_zero_tokens blocked_viterbi ∅ [[]; []] [[]; []] (MFCTagger.init [])).
  repeat constructor.
Defined.

(** * Further properties *)

(** X1. The table returned by [pair_counts] holds at [result[a][b]] the
    number of positions [(i, j)] with [A[i][j] = a] and [B[i][j] = b], and has
    no entry for a pair that never occurs. *)
Theorem pair_counts_cells (A B : list (list string)) r (a b : string) :
  pair_counts A B = ok r →
  dget a r ≫= dget b = stored (occurrences (a, b) (aligned_pairs A B)).
Proof.
  intros Hrun. rewrite <- (pair_counts_cell _ _ _ _ _ Hrun).
  apply cell_stored. by eapply pair_counts_pos.
Qed.

Lemma pair_counts_cells_witness :
  ∃ r, pair_counts example_X example_Y = ok r
    ∧ dget "Spot" r ≫= dget "NOUN" = Some 2
    ∧ dget "Spot" r ≫= dget "VERB" = None.
Proof.
  eexists. split; [reflexivity|]. split.
  - by rewrite (pair_counts_cells example_X example_Y _ "Spot" "NOUN" eq_refl).
  - by rewrite (pair_counts_cells example_X example_Y _ "Spot" "VERB" eq_refl).
Defined.

(** X2. The two tables the notebook derives from the training split are
    transposes of each other: [pair_counts(X, Y)[w][t]] and
    [pair_counts(Y, X)[t][w]] are the same count, or both absent. *)
Theorem pair_counts_transpose (X Y : list (list string)) word_counts
    emission_counts (w t : string) :
  pair_counts X Y = ok word_counts →
  pair_counts Y X = ok emission_counts →
  dget w word_counts ≫= dget t = dget t emission_counts ≫= dget w.
Proof.
  intros Hwc Hec.
  rewrite (cell_stored word_counts) by (by eapply pair_counts_pos).
  rewrite (cell_stored emission_counts) by (by eapply pair_counts_pos).
  rewrite (pair_counts_cell _ _ _ w t Hwc), (pair_counts_cell _ _ _ t w Hec).
  by rewrite aligned_pairs_swap.
Qed.

Lemma pair_counts_transpose_witness :
  ∃ word_counts emission_counts,
    pair_counts example_X example_Y = ok word_counts
    ∧ pair_counts example_Y example_X = ok emission_counts
    ∧ dget "Spot" word_counts ≫= dget "NOUN"
      = dget "NOUN" emission_counts ≫= dget "Spot".
Proof.
  do 2 eexists. split_and!; [reflexivity..|].
  exact (pair_counts_transpose example_X example_Y _ _ "Spot" "NOUN" eq_refl eq_refl).
Defined.

(** X3. [unigram_counts] maps each value to the number of times it occurs
    over all sentences, holds no entry for a value that does not occur, and
    its counts add up to the number of tokens. *)
Theorem unigram_counts_occurrences (sequences : list (list string)) :
  (∀ y, dget y (unigram_counts sequences)
        = stored (occurrences y (concat sequences)))
  ∧ sum_list_with snd (unigram_counts sequences) = length (concat sequences).
Proof.
  split.
  - intros y. rewrite <- unigram_counts_dcount.
    apply stored_dcount, unigram_counts_dpos.
  - unfold unigram_counts.
    rewrite (fold_left_measure (λ d : dict string nat, sum_list_with snd d)
               (λ p : nat * list string, length p.2)).
    + unfold enumerate. rewrite (sum_list_with_enumerate length).
      apply sum_list_with_length_concat.
    + intros d [i sentence] _. simpl.
      rewrite (fold_left_measure (λ d : dict string nat, sum_list_with snd d)
                 (λ _, 1)).
      * f_equal. unfold enumerate. rewrite (sum_list_with_enumerate (λ _, 1)).
        clear. induction sentence; simpl; [done|]. by f_equal.
      * intros d0 [j x] _. apply count_store_sum.
Qed.

(** X4. The emission row of a tag adds up to the tag's unigram count: the
    counts [pair_counts(Y, X)[tag][word]], summed over the words, give
    [unigram_counts(Y)[tag]], so the emission probabilities handed to a state
    have numerators that add up to their common denominator. *)
Theorem emission_row_sums_to_unigram (X Y : list (list string))
    emission_counts (tag : string) row :
  pair_counts Y X = ok emission_counts →
  dget tag emission_counts = Some row →
  dget tag (unigram_counts Y) = Some (sum_list_with snd row).
Proof.
  intros Hem Hrow.
  pose proof (pair_counts_row_total _ _ _ tag Hem) as Htotal.
  unfold row_total in Htotal. rewrite Hrow in Htotal.
  rewrite (stored_dcount _ _ (unigram_counts_dpos Y)), unigram_counts_dcount.
  rewrite <- Htotal. unfold stored. rewrite decide_False; [done|].
  assert (0 < occurrences tag (concat Y)); [|lia].
  apply occurrences_pos, (pair_counts_keys _ _ _ _ Hem). eauto.
Qed.

Lemma emission_row_sums_to_unigram_witness :
  ∃ emission_counts row,
    pair_counts example_Y example_X = ok emission_counts
    ∧ dget "NOUN" emission_counts = Some row
    ∧ dget "NOUN" (unigram_counts example_Y) = Some (sum_list_with snd row).
Proof.
  do 2 eexists. split_and!; [reflexivity..|].
  exact (emission_row_sums_to_unigram example_X example_Y _ "NOUN" _ eq_refl eq_refl).
Defined.

(** X5. [starting_counts] raises [IndexError] exactly when some sentence is
    empty; otherwise it maps each value to the number of sentences that begin
    with it, and its counts add up to the number of sentences. *)
Theorem starting_counts_spec (sequences : list (list string)) :
  ([] ∈ sequences ↔ starting_counts sequences = raise IndexError)
  ∧ ([] ∉ sequences ↔ ∃ d, starting_counts sequences = ok d)
  ∧ ∀ d, starting_counts sequences = ok d →
      (∀ t, dget t d = stored (occurrences (Some t) (head <$> sequences)))
      ∧ sum_list_with snd d = length sequences.
Proof.
  assert (∀ d, starting_counts sequences = ok d →
            dpos d ∧ (∀ t, dcount d t = occurrences (Some t) (head <$> sequences))
            ∧ sum_list_with snd d = length sequences
            ∧ Forall (λ sentence, is_Some (head sentence)) sequences) as Hok.
  { intros d. apply pick_loop_spec. intros d0 p d1. apply starting_body_ok. }
  assert ([] ∉ sequences ↔ ∃ d, starting_counts sequences = ok d) as Hiff.
  { split.
    - intros Hno. apply starting_counts_total, Forall_forall. by intros ?? ->.
    - intros [d (_ & _ & _ & Hall)%Hok] Hin.
      rewrite Forall_forall in Hall. by destruct (Hall _ Hin). }
  split_and!; [|done|].
  - split.
    + intros Hin. destruct (starting_counts sequences) as [e|d] eqn:Hrun.
      * by rewrite (starting_counts_raise _ _ Hrun).
      * destruct (proj2 Hiff); eauto.
    + intros Hrun. destruct (decide ([] ∈ sequences)) as [|Hno]; [done|].
      apply Hiff in Hno as [d Hd]. congruence.
  - intros d (Hpos & Hcount & Hsum & _)%Hok. split; [|done].
    intros t. rewrite <- Hcount. by apply stored_dcount.
Qed.

(** X6. [ending_counts] raises [IndexError] exactly when some sentence is
    empty; otherwise it maps each value to the number of sentences that end
    with it, and its counts add up to the number of sentences. *)
Theorem ending_counts_spec (sequences : list (list string)) :
  ([] ∈ sequences ↔ ending_counts sequences = raise IndexError)
  ∧ ([] ∉ sequences ↔ ∃ d, ending_counts sequences = ok d)
  ∧ ∀ d, ending_counts sequences = ok d →
      (∀ t, dget t d = stored (occurrences (Some t) (last <$> sequences)))
      ∧ sum_list_with snd d = length sequences.
Proof.
  assert (∀ d, ending_counts sequences = ok d →
            dpos d ∧ (∀ t, dcount d t = occurrences (Some t) (last <$> sequences))
            ∧ sum_list_with snd d = length sequences
            ∧ Forall (λ sentence, is_Some (last sentence)) sequences) as Hok.
  { intros d. apply pick_loop_spec. intros d0 p d1. apply ending_body_ok. }
  assert ([] ∉ sequences ↔ ∃ d, ending_counts sequences = ok d) as Hiff.
  { split.
    - intros Hno. apply ending_counts_total, Forall_forall. by intros ?? ->.
    - intros [d (_ & _ & _ & Hall)%Hok] Hin.
      rewrite Forall_forall in Hall. by destruct (Hall _ Hin). }
  split_and!; [|done|].
  - split.
    + intros Hin. destruct (ending_counts sequences) as [e|d] eqn:Hrun.
      * by rewrite (ending_counts_raise _ _ Hrun).
      * destruct (proj2 Hiff); eauto.
    + intros Hrun. destruct (decide ([] ∈ sequences)) as [|Hno]; [done|].
      apply Hiff in Hno as [d Hd]. congruence.
  - intros d (Hpos & Hcount & Hsum & _)%Hok. split; [|done].
    intros t. rewrite <- Hcount. by apply stored_dcount.
Qed.

(** X7. [bigram_counts] never raises, and its counts add up to the number of
    adjacent positions: [len(sentence) - 1] for every non-empty sentence. *)
Theorem bigram_counts_adds_up (sequences : list (list string)) :
  ∃ d, bigram_counts sequences = ok d
    ∧ sum_list_with snd d
      = sum_list_with (λ sentence, length sentence - 1) sequences.
Proof.
  destruct (bigram_counts_total sequences) as [d Hd]. exists d.
  split; [done|]. by apply bigram_counts_sum.
Qed.

(** X8. For every tag, the counts of the pairs that begin with it plus the
    number of sentences that end with it make up its unigram count:
    [sum(bigram[(t, u)] for u) + end[t] = unigram[t]]. *)
Theorem pairs_and_ends_make_unigrams (Y : list (list string))
    tag_bigrams tag_ends (t : string) :
  bigram_counts Y = ok tag_bigrams →
  ending_counts Y = ok tag_ends →
  first_total tag_bigrams t + dcount tag_ends t = dcount (unigram_counts Y) t.
Proof.
  intros Hbi Hen.
  destruct (pick_loop_spec last _ Y tag_ends
              (λ d0 p d1, ending_body_ok d0 p d1) Hen) as (_ & Hends & _ & Hne).
  rewrite (bigram_counts_first_total _ _ t Hbi), Hends, unigram_counts_dcount.
  rewrite <- occurrences_concat. clear -Hne.
  induction Hne as [|sentence Y Hlast _ IH]; [done|].
  rewrite fmap_cons, occurrences_cons. cbn [sum_list_with]. rewrite <- IH.
  rewrite <- (occurrences_split_last t sentence) by (by intros ->; destruct Hlast).
  lia.
Qed.

Lemma pairs_and_ends_make_unigrams_witness :
  ∃ tag_bigrams tag_ends,
    bigram_counts example_Y = ok tag_bigrams
    ∧ ending_counts example_Y = ok tag_ends
    ∧ first_total tag_bigrams "NOUN" + dcount tag_ends "NOUN"
      = dcount (unigram_counts example_Y) "NOUN".
Proof.
  do 2 eexists. split_and!; [reflexivity..|].
  exact (pairs_and_ends_make_unigrams example_Y _ _ "NOUN" eq_refl eq_refl).
Defined.

(** X9. Ties in [mfc_table] go to the earliest tag: the tag stored for a
    word stands in the word's row of [pair_counts(X, Y)] before every other
    tag with the same count (every earlier tag has a strictly smaller count,
    no tag has a larger one), rows being in the order in which the tags first
    occurred with the word. *)
Theorem mfc_table_first_maximum (vocab : gset string)
    (X Y : list (list string)) word_counts mfc_table (w tag : string) :
  pair_counts X Y = ok word_counts →
  build_mfc_table vocab word_counts = ok mfc_table →
  dget w mfc_table = Some tag →
  ∃ row i c,
    dget w word_counts = Some row ∧ row !! i = Some (tag, c)
    ∧ (∀ j tag' c', j < i → row !! j = Some (tag', c') → c' < c)
    ∧ (∀ j tag' c', row !! j = Some (tag', c') → c' ≤ c).
Proof.
  intros Hwc Hbuild. revert w tag.
  destruct (pair_counts_wf _ _ _ Hwc) as [_ Hrows].
  assert (∀ (row : list (string * nat)) j tag' c',
            NoDup (dkeys row) → row !! j = Some (tag', c') → dget tag' row = Some c')
    as Hget.
  { intros row. unfold dkeys. induction row as [|[k v] row IH]; intros j tag' c' Hnd Hj;
      [done|]. rewrite fmap_cons in Hnd. cbn [fst] in Hnd.
    apply NoDup_cons in Hnd as [Hk Hnd]. destruct j as [|j]; simpl in *.
    - injection Hj as -> ->. by rewrite decide_True.
    - rewrite decide_False; [by eapply IH|]. intros ->. apply Hk.
      apply list_elem_of_fmap. exists (k, c'). split; [done|].
      by eapply list_elem_of_lookup_2. }
  unfold build_mfc_table in Hbuild. revert Hbuild.
  apply (for_each_invariant
           (λ tbl : list (string * string), ∀ w tag, dget w tbl = Some tag →
              ∃ row i c,
                dget w word_counts = Some row ∧ row !! i = Some (tag, c)
                ∧ (∀ j tag' c', j < i → row !! j = Some (tag', c') → c' < c)
                ∧ (∀ j tag' c', row !! j = Some (tag', c') → c' ≤ c))); [|done].
  intros tbl word tbl' _ Htbl (row & best & Hrow & Hmax & ->)%mfc_body_ok w tag.
  rewrite dget_dset. case_decide; [|apply Htbl]. subst. intros [= <-].
  destruct (Hrows _ _ Hrow) as [Hnd _].
  apply py_max_first in Hmax as (i & c & Hi & Hc & Hbefore & Hall).
  unfold dkeys in Hi. rewrite list_lookup_fmap in Hi.
  destruct (row !! i) as [[best' cb]|] eqn:Hri; [|done]. injection Hi as ->.
  assert (∀ k v, dget k row = Some v →
            (do row <- dlookup word_counts word; dlookup row k) = ok v) as Hkey.
  { intros k v Hk. unfold dlookup. rewrite Hrow. simpl. by rewrite Hk. }
  rewrite (Hkey _ _ (Hget _ _ _ _ Hnd Hri)) in Hc. injection Hc as ->.
  exists row, i, c. split_and!; [done..| |].
  - intros j tag' c' Hj Hrj. eapply (Hbefore j tag'); [done| |].
    + unfold dkeys. by rewrite list_lookup_fmap, Hrj.
    + eapply Hkey, Hget; done.
  - intros j tag' c' Hrj. eapply (Hall tag').
    + apply list_elem_of_fmap. exists (tag', c'). split; [done|].
      by eapply list_elem_of_lookup_2.
    + eapply Hkey, Hget; done.
Qed.

Lemma mfc_table_first_maximum_witness :
  ∃ word_counts mfc_table,
    pair_counts [["run"; "run"]] [["VERB"; "NOUN"]] = ok word_counts
    ∧ build_mfc_table {["run"]} word_counts = ok mfc_table
    ∧ dget "run" mfc_table = Some "VERB"
    ∧ ∃ row i c,
        dget "run" word_counts = Some row ∧ row !! i = Some ("VERB", c)
        ∧ (∀ j tag' c', j < i → row !! j = Some (tag', c') → c' < c)
        ∧ (∀ j tag' c', row !! j = Some (tag', c') → c' ≤ c).
Proof.
  do 2 eexists. split_and!; [vm_compute; reflexivity..|].
  eapply (mfc_table_first_maximum {["run"]} [["run"; "run"]] [["VERB"; "NOUN"]]);
    vm_compute; reflexivity.
Defined.

(** X10. Filling [mfc_table] raises [KeyError] as soon as the vocabulary
    holds a word that does not occur in the word sequences the counts were
    taken from. *)
Theorem mfc_table_unknown_vocabulary (vocab : gset string)
    (X Y : list (list string)) word_counts (w : string) :
  pair_counts X Y = ok word_counts →
  w ∈ vocab → w ∉ concat X →
  build_mfc_table vocab word_counts = raise KeyError.
Proof.
  intros Hwc Hw Hno. unfold build_mfc_table. apply for_each_raises.
  - intros tbl word _.
    destruct (dget word word_counts) as [row|] eqn:Hrow.
    + right. destruct (pair_counts_wf _ _ _ Hwc) as [_ Hrows].
      destruct (Hrows _ _ Hrow) as [_ Hne].
      destruct (mfc_body_spec word_counts tbl word row Hrow Hne) as (tag & Hb & _).
      eauto.
    + left. unfold dlookup at 1. by rewrite Hrow.
  - exists w. split; [by apply elem_of_elements|]. intros tbl.
    destruct (dget w word_counts) as [row|] eqn:Hrow.
    + destruct Hno. apply (pair_counts_keys _ _ _ _ Hwc). eauto.
    + unfold dlookup at 1. by rewrite Hrow.
Qed.

Lemma mfc_table_unknown_vocabulary_witness :
  ∃ word_counts,
    pair_counts [["Spot"; "ran"]] [["NOUN"; "VERB"]] = ok word_counts
    ∧ build_mfc_table {["Spot"; "barked"]} word_counts = raise KeyError.
Proof.
  eexists. split; [reflexivity|].
  apply (mfc_table_unknown_vocabulary {["Spot"; "barked"]}
           [["Spot"; "ran"]] [["NOUN"; "VERB"]] _ "barked");
    [reflexivity|set_solver|].
  intros Hin. simpl in Hin. set_solver.
Defined.

(** X11. What [MFCTagger.viterbi] returns and leaves behind, for a tagger in
    any state: the score is 0; the path is [<start>], one state per word (the
    state the table answered for the word before the call) and [<end>],
    numbered from 0; and the table afterwards keeps every entry it had and
    has gained the default state for exactly the words of the sequence it
    did not hold. *)
Theorem mfc_viterbi_effects (self : MFCTagger.t) (seq : list string) :
  (MFCTagger.viterbi self seq).2.1 = 0%Q
  ∧ (MFCTagger.viterbi self seq).2.2
    = enumerate ([ObjStr "<start>"]
                 ++ (ObjFakeState <$> (table_answer self <$> seq))
                 ++ [ObjStr "<end>"])
  ∧ length (MFCTagger.viterbi self seq).2.2 = length seq + 2
  ∧ ∀ w, dget w (MFCTagger.table (MFCTagger.viterbi self seq).1)
         = match dget w (MFCTagger.table self) with
           | Some fs => Some fs
           | None => if decide (w ∈ seq) then Some MFCTagger.missing else None
           end.
Proof.
  unfold MFCTagger.viterbi.
  destruct (lookup_all_answers self seq) as [Htags _].
  pose proof (lookup_all_table self seq) as Htable.
  destruct (MFCTagger.lookup_all self seq) as [self1 tags]. simpl in *.
  rewrite Htags. split_and!; [done..| |done].
  unfold enumerate. rewrite length_enumerate_from, !length_app, !length_fmap.
  simpl. lia.
Qed.

(** X12. Decoding with the baseline through [simplify_decoding] never
    raises and returns one tag name per word: the name of the state the
    table answers for the word itself when the word is in the vocabulary, and
    for the sentinel ['nan'] otherwise. *)
Theorem simplify_decoding_mfc (vocab : gset string) (X : list string)
    (self : MFCTagger.t) :
  (simplify_decoding mfc_viterbi vocab X self).2
  = ok ((λ w, fake_name (table_answer self (if decide (w ∈ vocab) then w else "nan")))
        <$> X)
  ∧ ∀ tags, (simplify_decoding mfc_viterbi vocab X self).2 = ok tags →
      length tags = length X.
Proof.
  assert ((simplify_decoding mfc_viterbi vocab X self).2
          = ok ((λ w, fake_name
                        (table_answer self (if decide (w ∈ vocab) then w else "nan")))
                <$> X)) as Hrun.
  { unfold simplify_decoding, mfc_viterbi, MFCTagger.viterbi.
    destruct (lookup_all_answers self (replace_unknown vocab X)) as [Htags _].
    destruct (MFCTagger.lookup_all self (replace_unknown vocab X)) as [self1 tags].
    simpl in *. rewrite Htags.
    pose proof (slice_inner_enumerate (ObjStr "<start>") (ObjStr "<end>")
                  (ObjFakeState <$> (table_answer self <$> replace_unknown vocab X)))
      as Hslice.
    simpl in Hslice. rewrite Hslice, map_result_names.
    unfold replace_unknown. by rewrite <- !list_fmap_compose. }
  split; [done|]. intros tags. rewrite Hrun. intros [= <-]. apply length_fmap.
Qed.

(** X13. On word and tag collections of the same shape, the ratio returned
    by [accuracy] lies between 0 and 1, whatever the model answers. *)
Theorem accuracy_within_unit_interval {Model Score : Type}
    (viterbi : Model → list string → Model * result (Score * option path))
    (vocab : gset string) (X Y : list (list string)) (model : Model) (q : Q) :
  Forall2 (λ observations actual_tags, length observations = length actual_tags) X Y →
  (accuracy viterbi vocab X Y model).2 = ok q →
  (0 <= q)%Q ∧ (q <= 1)%Q.
Proof.
  intros Hshape. rewrite accuracy_pairs.
  pose proof (Forall2_length _ _ _ Hshape) as Hlen.
  rewrite fst_zip, snd_zip by lia. apply truediv_bounds.
  generalize (decode_all viterbi vocab model X). clear Hlen.
  induction Hshape as [|obs tags X Y Hl _ IH]; intros rs.
  - by destruct rs.
  - destruct rs as [|r rs]; [simpl; lia|].
    cbn [zip_with sum_list_with concat]. rewrite length_app.
    pose proof (sentence_correct_le r tags). specialize (IH rs).
    unfold id in *. lia.
Qed.

Lemma accuracy_within_unit_interval_witness :
  (0 <= Qmake 2 4)%Q ∧ (Qmake 2 4 <= 1)%Q.
Proof.
  apply (accuracy_within_unit_interval blocked_viterbi {["Spot"; "ran"]}
           [["Spot"; "ran"]; ["Spot"; "barked"]]
           [["NOUN"; "VERB"]; ["NOUN"; "VERB"]]
           (MFCTagger.init [("Spot", "NOUN"); ("ran", "VERB")])).
  - repeat constructor.
  - vm_compute. reflexivity.
Defined.

(** X14. A model that the build loop completes has one state per key of the
    emission table, named after the key and in the table's order, carries
    three transitions per key of the bigram table, and is baked. *)
Theorem built_model_shape (emission_counts : table2)
    (tag_unigrams : dict string nat) (tag_bigrams : dict (string * string) nat)
    (tag_starts tag_ends : dict string nat) (len_data_y : nat)
    (m : HiddenMarkovModel) :
  build_basic_model emission_counts tag_unigrams tag_bigrams tag_starts tag_ends
    len_data_y = ok m →
  name <$> hmm_states m = dkeys emission_counts
  ∧ length (hmm_edges m) = 3 * length (dkeys tag_bigrams)
  ∧ hmm_baked m = true.
Proof.
  intros (Hstates & Hedges & Hbaked)%build_basic_model_shape.
  split_and!; [|done..].
  induction Hstates as [|tag s keys states [Hname _] _ IH]; [done|].
  rewrite fmap_cons. by f_equal.
Qed.

Lemma built_model_shape_witness :
  ∃ m, build_basic_model [("A", [("a", 2)])] [("A", 2)] [(("A", "A"), 1)]
         [("A", 1)] [("A", 1)] 1 = ok m
    ∧ name <$> hmm_states m = ["A"]
    ∧ length (hmm_edges m) = 3
    ∧ hmm_baked m = true.
Proof.
  eexists. split; [vm_compute; reflexivity|].
  apply (built_model_shape [("A", [("a", 2)])] [("A", 2)] [(("A", "A"), 1)]
           [("A", 1)] [("A", 1)] 1).
  vm_compute. reflexivity.
Defined.

(** X15. In a model that the build loop completes, the first tag of every
    key of the bigram table gets a transition from the start state with
    probability [tag_starts[tag] / len_data_y]; every transition out of the
    start state is one of these; and no transition enters the start state,
    leaves the end state, or joins the start state to the end state. *)
Theorem start_transitions (emission_counts : table2)
    (tag_unigrams : dict string nat) (tag_bigrams : dict (string * string) nat)
    (tag_starts tag_ends : dict string nat) (len_data_y : nat)
    (m : HiddenMarkovModel) :
  build_basic_model emission_counts tag_unigrams tag_bigrams tag_starts tag_ends
    len_data_y = ok m →
  (∀ t u, (t, u) ∈ dkeys tag_bigrams →
     ∃ s c p, s ∈ hmm_states m ∧ name s = t
       ∧ dget t tag_starts = Some c ∧ truediv c len_data_y = ok p
       ∧ (model_start, state_node s, p) ∈ hmm_edges m)
  ∧ (∀ s p, (model_start, state_node s, p) ∈ hmm_edges m →
       ∃ u c, (name s, u) ∈ dkeys tag_bigrams
         ∧ dget (name s) tag_starts = Some c ∧ truediv c len_data_y = ok p)
  ∧ (∀ a b p, (a, b, p) ∈ hmm_edges m →
       a ≠ model_end ∧ b ≠ model_start ∧ (a, b) ≠ (model_start, model_end)).
Proof.
  intros (states & ess & Hstates & Hkeys & Hess & Hedges)%build_basic_model_ok.
  split_and!.
  - intros t u [n Hn]%list_elem_of_lookup.
    destruct (Forall2_lookup_l _ _ _ _ _ Hess Hn) as (es & Hes & Hadded).
    destruct Hadded as (s0 & s1 & c_start & ? & ? & ? & p_start & ? & ?
                        & Hs0 & _ & Hcs & Hps & _ & _ & _ & _ & _ & ->).
    simpl in *. destruct (Hstates _ _ Hs0) as [[Hname _] Hin].
    exists s0, c_start, p_start. split_and!; [done..|].
    rewrite Hedges. apply elem_of_concat. eexists. split.
    + by eapply list_elem_of_lookup_2.
    + left.
  - intros s p Hin. rewrite Hedges in Hin.
    apply elem_of_concat in Hin as (es & [n Hn]%list_elem_of_lookup & Hin).
    destruct (Forall2_lookup_r _ _ _ _ _ Hess Hn) as (bigram & Hbg & Hadded).
    destruct Hadded as (s0 & s1 & c_start & ? & ? & ? & p_start & ? & ?
                        & Hs0 & _ & Hcs & Hps & _ & _ & _ & _ & _ & ->).
    destruct (Hstates _ _ Hs0) as [[Hname _] _].
    apply elem_of_cons in Hin as [[= -> ->]|Hin].
    + exists bigram.2, c_start. rewrite Hname. split_and!; [|done..].
      destruct bigram. by eapply list_elem_of_lookup_2.
    + apply elem_of_cons in Hin as [[=]|Hin].
      by apply list_elem_of_singleton in Hin.
  - intros a b p Hin. rewrite Hedges in Hin.
    apply elem_of_concat in Hin as (es & [n Hn]%list_elem_of_lookup & Hin).
    destruct (Forall2_lookup_r _ _ _ _ _ Hess Hn) as (bigram & Hbg & Hadded).
    destruct Hadded as (s0 & s1 & ? & ? & ? & ? & ? & ? & ?
                        & _ & _ & _ & _ & _ & _ & _ & _ & _ & ->).
    apply elem_of_cons in Hin as [[= -> -> ->]|Hin]; [done|].
    apply elem_of_cons in Hin as [[= -> -> ->]|Hin]; [done|].
    apply list_elem_of_singleton in Hin. by injection Hin as -> -> ->.
Qed.

Lemma start_transitions_witness :
  ∃ m, build_basic_model [("A", [("a", 2)])] [("A", 2)] [(("A", "A"), 1)]
         [("A", 1)] [("A", 1)] 1 = ok m
    ∧ ∀ s p, (model_start, state_node s, p) ∈ hmm_edges m →
        ∃ u c, (name s, u) ∈ dkeys [(("A", "A"), 1)]
          ∧ dget (name s) [("A", 1)] = Some c ∧ truediv c 1 = ok p.
Proof.
  eexists. split; [vm_compute; reflexivity|].
  apply (start_transitions [("A", [("a", 2)])] [("A", 2)] [(("A", "A"), 1)]
           [("A", 1)] [("A", 1)] 1).
  vm_compute. reflexivity.
Defined.

(** X16. The distribution of every state of a model built from a training
    split lists exactly the words counted under the state's tag, in the order
    of the emission row: a word never seen with the tag has no entry. *)
Theorem state_distribution_support (X Y : list (list string))
    (m : HiddenMarkovModel) :
  train_basic_model X Y = ok m →
  ∃ emission_counts,
    pair_counts Y X = ok emission_counts
    ∧ ∀ s, s ∈ hmm_states m →
        ∃ row, dget (name s) emission_counts = Some row
          ∧ dkeys (distribution s) = dkeys row.
Proof.
  intros (emission_counts & tag_bigrams & tag_starts & tag_ends
          & Hem & _ & _ & _ & Hbuild)%train_basic_model_ok.
  exists emission_counts. split; [done|].
  apply build_basic_model_shape in Hbuild as (Hstates & _).
  intros s [n Hn]%list_elem_of_lookup.
  destruct (Forall2_lookup_r _ _ _ _ _ Hstates Hn)
    as (tag & _ & Hname & total & row & _ & Hrow & Hdist).
  rewrite Hname. exists row. split; [done|].
  destruct (pair_counts_wf _ _ _ Hem) as [_ Hrows].
  destruct (Hrows _ _ Hrow) as [Hnd _].
  by apply (prob_dist_keys total row []).
Qed.

Lemma state_distribution_support_witness :
  ∃ m, train_basic_model example_X example_Y = ok m
    ∧ ∃ emission_counts,
        pair_counts example_Y example_X = ok emission_counts
        ∧ ∀ s, s ∈ hmm_states m →
            ∃ row, dget (name s) emission_counts = Some row
              ∧ dkeys (distribution s) = dkeys row.
Proof.
  eexists. split; [vm_compute; reflexivity|].
  apply (state_distribution_support example_X example_Y). vm_compute. reflexivity.
Defined.

(** X17. On a training split whose tag and word sequences have the same
    shape and hold no empty sentence, the build completes as soon as every
    tag that begins a bigram also begins some sentence and ends some
    sentence. *)
Theorem build_succeeds (X Y : list (list string)) :
  Forall2 (λ tags words, length tags = length words) Y X →
  Forall (λ tags, tags ≠ []) Y →
  (∀ sentence k b0, sentence ∈ Y → sentence !! k = Some b0 →
     is_Some (sentence !! S k) →
     (∃ tags, tags ∈ Y ∧ head tags = Some b0)
     ∧ (∃ tags, tags ∈ Y ∧ last tags = Some b0)) →
  ∃ m, train_basic_model X Y = ok m.
Proof.
  intros Hshape Hne Hboth.
  destruct (proj1 (pair_counts_covered Y X) (same_shape_covered _ _ Hshape))
    as [emission_counts Hem].
  destruct (bigram_counts_total Y) as [tag_bigrams Hbi].
  destruct (starting_counts_total Y Hne) as [tag_starts Hst].
  destruct (ending_counts_total Y Hne) as [tag_ends Hen].
  unfold train_basic_model. rewrite Hem, Hbi, Hst, Hen. simpl.
  unfold build_basic_model.
  destruct (trained_state_loop_total X Y _ Hem) as [[states m0] Hloop1].
  rewrite Hloop1. simpl.
  destruct (transition_loop_total (unigram_counts Y) tag_bigrams tag_starts
              tag_ends (length Y) states (dkeys tag_bigrams) m0)
    as [m1 Hloop2].
  - by eapply trained_tables_consistent.
  - by eapply bigram_key_sentences.
  - intros [t u] Htu.
    assert (is_Some (dget (t, u) tag_bigrams)) as Hsome by (by apply dget_is_Some).
    apply (bigram_counts_is_Some _ _ _ _ Hbi) in Hsome as (s & j & Hs & Ht & Hu).
    destruct (Hboth s j t Hs Ht) as [Hhead Hlast]; [eauto|]. simpl. split.
    + by apply (starting_counts_keys _ _ _ Hst).
    + by apply (ending_counts_keys _ _ _ Hen).
  - rewrite Hloop2. simpl. eauto.
Qed.

Lemma build_succeeds_witness : ∃ m, train_basic_model example_X example_Y = ok m.
Proof.
  apply (build_succeeds example_X example_Y).
  - repeat constructor.
  - repeat constructor; discriminate.
  - intros sentence k b0 Hs Hk Hnext.
    assert (b0 = "NOUN" ∨ b0 = "VERB") as [-> | ->].
    { apply list_elem_of_lookup_2 in Hk. unfold example_Y in Hs.
      apply elem_of_cons in Hs as [Hs|Hs].
      - subst sentence. repeat (apply elem_of_cons in Hk as [Hk|Hk]; [by auto|]).
        by apply elem_of_nil in Hk.
      - apply list_elem_of_singleton in Hs. subst sentence.
        repeat (apply elem_of_cons in Hk as [Hk|Hk]; [by auto|]).
        by apply elem_of_nil in Hk. }
    + split; [exists ["NOUN"; "VERB"; "NOUN"; "NOUN"]|exists ["NOUN"; "VERB"; "NOUN"; "NOUN"]];
        (split; [left|reflexivity]).
    + split; [exists ["VERB"; "NOUN"; "VERB"]|exists ["VERB"; "NOUN"; "VERB"]];
        (split; [right; left|reflexivity]).
Defined.

(** X18. Building the model from a training split raises nothing but
    [IndexError] and [KeyError]: [IndexError] only when a tag position has no
    word or a tag sentence is empty, [KeyError] only when some tag that
    begins a bigram begins no sentence or ends no sentence.  In particular
    no division by zero occurs. *)
Theorem train_failure_modes (X Y : list (list string)) (e : exn) :
  train_basic_model X Y = raise e →
  (e = IndexError ∧ (¬ covered Y X ∨ [] ∈ Y))
  ∨ (e = KeyError
     ∧ ∃ sentence k b0 b1,
         sentence ∈ Y ∧ sentence !! k = Some b0 ∧ sentence !! S k = Some b1
         ∧ ((∀ tags, tags ∈ Y → head tags ≠ Some b0)
            ∨ (∀ tags, tags ∈ Y → last tags ≠ Some b0))).
Proof.
  unfold train_basic_model. intros Hrun.
  destruct (pair_counts Y X) as [e1|emission_counts] eqn:Hem.
  { left. injection Hrun as <-. split; [by eapply pair_counts_raise|].
    left. intros [r Hr]%pair_counts_covered. congruence. }
  destruct (bigram_counts_total Y) as [tag_bigrams Hbi]. rewrite Hbi in Hrun.
  simpl in Hrun.
  assert ([] ∈ Y → Forall (λ tags : list string, tags ≠ []) Y → False) as Hempty.
  { intros Hin Hne. rewrite Forall_forall in Hne. by apply (Hne _ Hin). }
  destruct (decide ([] ∈ Y)) as [Hin|Hno].
  { left. destruct (starting_counts Y) as [e1|tag_starts] eqn:Hst.
    - injection Hrun as <-. split; [by eapply starting_counts_raise|by right].
    - destruct (pick_loop_spec head _ Y tag_starts
                  (λ d0 p d1, starting_body_ok d0 p d1) Hst) as (_ & _ & _ & Hall).
      rewrite Forall_forall in Hall. by destruct (Hall _ Hin). }
  assert (Forall (λ tags : list string, tags ≠ []) Y) as Hne.
  { apply Forall_forall. by intros ?? ->. }
  destruct (starting_counts_total Y Hne) as [tag_starts Hst].
  destruct (ending_counts_total Y Hne) as [tag_ends Hen].
  rewrite Hst, Hen in Hrun. simpl in Hrun. unfold build_basic_model in Hrun.
  destruct (trained_state_loop_total X Y _ Hem) as [[states m0] Hloop1].
  rewrite Hloop1 in Hrun. simpl in Hrun.
  destruct (for_each _ m0 (dkeys tag_bigrams)) as [e2|m1] eqn:Hloop2; [|done].
  injection Hrun as <-.
  apply transition_loop_raise in Hloop2 as (-> & [t u] & Htu & Hmiss).
  - right. split; [done|].
    assert (is_Some (dget (t, u) tag_bigrams)) as Hsome by (by apply dget_is_Some).
    apply (bigram_counts_is_Some _ _ _ _ Hbi) in Hsome as (s & j & Hs & Ht & Hu).
    exists s, j, t, u. split_and!; [done..|]. simpl in Hmiss.
    destruct Hmiss as [Hnone|Hnone]; [left|right]; intros tags Htags Hpick.
    + assert (is_Some (dget t tag_starts)) as [? ?]; [|congruence].
      apply (starting_counts_keys _ _ _ Hst). eauto.
    + assert (is_Some (dget t tag_ends)) as [? ?]; [|congruence].
      apply (ending_counts_keys _ _ _ Hen). eauto.
  - by eapply trained_tables_consistent.
  - by eapply bigram_key_sentences.
Qed.

Lemma train_failure_modes_witness :
  (KeyError = IndexError
   ∧ (¬ covered [["VERB"; "NOUN"; "VERB"]; ["NOUN"; "VERB"]]
                [["See"; "Spot"; "run"]; ["Spot"; "ran"]]
      ∨ [] ∈ [["VERB"; "NOUN"; "VERB"]; ["NOUN"; "VERB"]]))
  ∨ (KeyError = KeyError
     ∧ ∃ sentence k b0 b1,
         sentence ∈ [["VERB"; "NOUN"; "VERB"]; ["NOUN"; "VERB"]]
         ∧ sentence !! k = Some b0 ∧ sentence !! S k = Some b1
         ∧ ((∀ tags, tags ∈ [["VERB"; "NOUN"; "VERB"]; ["NOUN"; "VERB"]]
                     → head tags ≠ Some b0)
            ∨ (∀ tags, tags ∈ [["VERB"; "NOUN"; "VERB"]; ["NOUN"; "VERB"]]
                       → last tags ≠ Some b0))).
Proof.
  apply (train_failure_modes [["See"; "Spot"; "run"]; ["Spot"; "ran"]]
           [["VERB"; "NOUN"; "VERB"]; ["NOUN"; "VERB"]] KeyError).
  vm_compute. reflexivity.
Defined.

(** X19. [replace_unknown] is idempotent: a sequence that went through it
    once is left as it is by a second pass, whether or not the sentinel
    ['nan'] is itself in the vocabulary. *)
Theorem replace_unknown_idempotent (vocab : gset string) (sequence : list string) :
  replace_unknown vocab (replace_unknown vocab sequence)
  = replace_unknown vocab sequence.
Proof.
  unfold replace_unknown. rewrite <- list_fmap_compose.
  apply list_fmap_ext. intros _ w _. simpl.
  destruct (decide (w ∈ vocab)) as [Hw|Hw].
  - by rewrite decide_True.
  - by case_decide.
Qed.

(** X20. The baseline uses no context: decoding two sequences one after the
    other with the same tagger object gives, joined, what decoding their
    concatenation gives, the insertions made in the tagger's table by the
    first call notwithstanding. *)
Theorem mfc_decoding_context_free (vocab : gset string) (X1 X2 : list string)
    (self : MFCTagger.t) :
  let first := simplify_decoding mfc_viterbi vocab X1 self in
  let second := simplify_decoding mfc_viterbi vocab X2 first.1 in
  ∃ tags1 tags2,
    first.2 = ok tags1 ∧ second.2 = ok tags2
    ∧ (simplify_decoding mfc_viterbi vocab (X1 ++ X2) self).2 = ok (tags1 ++ tags2).
Proof.
  intros first second. subst first second.
  rewrite !simplify_decoding_mfc_run. do 2 eexists. split_and!; [done..|].
  rewrite fmap_app. do 2 f_equal.
  apply list_fmap_ext. intros _ w _. simpl.
  by rewrite simplify_decoding_mfc_state.
Qed.
